(** * A model of [advanced-vector/vector.h]

    [RawMemory<T>] owns a block of uninitialised storage; [Vector<T>] owns one
    [RawMemory<T>] and a count of live elements.  The embedding below keeps the
    two classes apart, as the header does:

    - element storage is a finite map from slot addresses (block, offset) to
      the objects alive there; a slot that holds no object is absent;
    - [Vector] objects live in a store indexed by their address, because
      [operator=] compares [this] with [&rhs] and [Swap] takes a reference;
    - the element type is a parameter: the value a moved-from object is left
      with, the value of [T()], the two traits queried by [if constexpr], and a
      schedule telling which element operations throw;
    - a call returns normally, throws, or leaves defined behaviour (a failed
      [assert], a use of a slot that holds no object);
    - every element operation is recorded in a trace.

    Sizes are natural numbers: the arithmetic of [size_t] is taken not to wrap
    ([size_ * 2] stays below 2^64), and [operator new] is taken to succeed. *)

From stdpp Require Import gmap list strings.

(** ** Addresses *)

(** A pointer into element storage: a block and an offset counted in elements.
    Block [0] is the null pointer. *)
Abbreviation ptr := (nat * nat)%type.

Definition ptr_add (p : ptr) (k : nat) : ptr := (p.1, p.2 + k).
Infix "+ₚ" := ptr_add (at level 50, left associativity).

(** ** The two classes *)

Record RawMemory := mkRawMemory {
  buffer_ : nat;      (* T* buffer_ = nullptr;  the block *)
  capacity_ : nat     (* size_t capacity_ = 0 *)
}.

Record Vector := mkVector {
  data_ : RawMemory;
  size_ : nat         (* size_t size_ = 0 *)
}.

(** [RawMemory() = default] and [Vector() = default]. *)
Definition RawMemory_default : RawMemory := mkRawMemory 0 0.
Definition Vector_default : Vector := mkVector RawMemory_default 0.

(** ** Outcomes and the trace *)

Inductive exception :=
| ElementError (k : nat).       (* thrown by the element operation number k *)

Inductive fault :=
| AssertionFailed               (* an assert of the header does not hold *)
| NoObject (p : ptr)            (* a slot is read or assigned that holds no object *)
| BeforeBlock                   (* a pointer is moved before the start of its block *)
| NoVector (a : nat).           (* no Vector object at this address *)

Inductive outcome (A : Type) :=
| Ok (a : A)
| Throw (e : exception)
| Fault (f : fault).
Arguments Ok {A} a.
Arguments Throw {A} e.
Arguments Fault {A} f.

(** Element operations.  [None] stands for an object outside element storage:
    an argument owned by the caller, or the local [temp] of [Emplace]. *)
Inductive event :=
| EvConstruct (dst : option ptr)               (* T(args...) *)
| EvValueConstruct (dst : option ptr)          (* T() *)
| EvCopyConstruct (src dst : option ptr)       (* T(const T&) *)
| EvMoveConstruct (src dst : option ptr)       (* T(T&&) *)
| EvCopyAssign (src dst : option ptr)          (* operator=(const T&) *)
| EvMoveAssign (src dst : option ptr)          (* operator=(T&&) *)
| EvDestroy (p : option ptr) (live : bool).    (* ~T(); live: an object was there *)

Global Instance exception_eq_dec : EqDecision exception.
Proof. solve_decision. Defined.
Global Instance fault_eq_dec : EqDecision fault.
Proof. solve_decision. Defined.
Global Instance event_eq_dec : EqDecision event.
Proof. solve_decision. Defined.

Declare Scope cpp_scope.
Delimit Scope cpp_scope with cpp.

Section VectorModel.

(** ** The element type *)

Context {T : Type}.
Variable moved_from : T → T.                  (* what a moved-from object holds *)
Variable value_init : T.                      (* the value of T() *)
Variable nothrow_move_constructible : bool.   (* std::is_nothrow_move_constructible_v<T> *)
Variable copy_constructible : bool.           (* std::is_copy_constructible_v<T> *)
Variable throws : nat → bool.                 (* element operation number k throws *)

(** A reference to an object: an element slot, or an object outside element
    storage together with the value it holds. *)
Inductive ref :=
| AtSlot (p : ptr)
| Outside (v : T).

(** What a constructor is called with: a parameter pack [args...] for which
    [T(args...)] yields [v], or one reference to a [T]. *)
Inductive arg :=
| Pack (v : T)
| Lvalue (r : ref)      (* const T& *)
| Rvalue (r : ref).     (* T&& *)

Definition ref_ptr (r : ref) : option ptr :=
  match r with AtSlot p => Some p | Outside _ => None end.

(** ** Machine state *)

Record state := mkState {
  vectors : gmap nat Vector;        (* Vector objects, by address *)
  objects : gmap (nat * nat) T;     (* live element objects, by slot *)
  allocated : nat;                  (* blocks handed out so far *)
  ticks : nat;                      (* element operations performed so far *)
  trace : list event                (* most recent first *)
}.

Definition set_vectors (f : gmap nat Vector → gmap nat Vector) (σ : state) : state :=
  mkState (f (vectors σ)) (objects σ) (allocated σ) (ticks σ) (trace σ).
Definition set_objects (f : gmap (nat * nat) T → gmap (nat * nat) T) (σ : state) : state :=
  mkState (vectors σ) (f (objects σ)) (allocated σ) (ticks σ) (trace σ).
Definition set_trace (f : list event → list event) (σ : state) : state :=
  mkState (vectors σ) (objects σ) (allocated σ) (ticks σ) (f (trace σ)).

(** ** The monad of calls *)

Definition M (A : Type) : Type := state → outcome A * state.

Definition ret {A} (a : A) : M A := λ σ, (Ok a, σ).
Definition throw {A} (e : exception) : M A := λ σ, (Throw e, σ).
Definition fault_ {A} (f : fault) : M A := λ σ, (Fault f, σ).

Definition bind {A B} (m : M A) (k : A → M B) : M B :=
  λ σ, match m σ with
       | (Ok a, σ') => k a σ'
       | (Throw e, σ') => (Throw e, σ')
       | (Fault f, σ') => (Fault f, σ')
       end.

Notation "x <- m ;; k" := (bind m (λ x, k))
  (at level 100, m at next level, k at level 200, right associativity) : cpp_scope.
Notation "m ;; k" := (bind m (λ _, k))
  (at level 100, k at level 200, right associativity) : cpp_scope.
Local Open Scope cpp_scope.

(** [try { m } catch (...) { h }]: the handler sees the state at the throw. *)
Definition try_catch {A} (m : M A) (h : exception → M A) : M A :=
  λ σ, match m σ with
       | (Throw e, σ') => h e σ'
       | r => r
       end.

(** A local object with a destructor: [cleanup] runs when an exception leaves
    [m], and the exception goes on. *)
Definition unwinding {A} (cleanup : M unit) (m : M A) : M A :=
  try_catch m (λ e, cleanup ;; throw e).

Definition assert_ (b : bool) : M unit :=
  if b then ret tt else fault_ AssertionFailed.

(** ** Element operations *)

Definition record (e : event) : M unit :=
  λ σ, (Ok tt, set_trace (cons e) σ).

(** One element operation: it takes the next number of the schedule and throws
    if the schedule says so, unless the operation is declared non-throwing. *)
Definition element_op (nothrow : bool) : M unit :=
  λ σ, let k := ticks σ in
       let σ' := mkState (vectors σ) (objects σ) (allocated σ) (S k) (trace σ) in
       if negb nothrow && throws k then (Throw (ElementError k), σ') else (Ok tt, σ').

Definition fetch (p : ptr) : M T :=
  λ σ, match objects σ !! p with
       | Some v => (Ok v, σ)
       | None => (Fault (NoObject p), σ)
       end.

Definition place (p : ptr) (v : T) : M unit :=
  λ σ, (Ok tt, set_objects <[p := v]> σ).

Definition value_of (r : ref) : M T :=
  match r with AtSlot p => fetch p | Outside v => ret v end.

(** The source of a move is left in its moved-from state; an object outside
    element storage belongs to the caller and is not followed. *)
Definition leave_moved (r : ref) (v : T) : M unit :=
  match r with AtSlot p => place p (moved_from v) | Outside _ => ret tt end.

(** The value a new object at [dst] is initialised with by [T(a)]. A throwing
    constructor leaves no object and does not change its source. *)
Definition init_from (dst : option ptr) (a : arg) : M T :=
  match a with
  | Pack v =>
      record (EvConstruct dst) ;; element_op false ;; ret v
  | Lvalue r =>
      v <- value_of r ;;
      record (EvCopyConstruct (ref_ptr r) dst) ;; element_op false ;; ret v
  | Rvalue r =>
      v <- value_of r ;;
      record (EvMoveConstruct (ref_ptr r) dst) ;;
      element_op nothrow_move_constructible ;;
      leave_moved r v ;; ret v
  end.

(** [args...] named inside a function are lvalues; [std::move(args)...] are
    rvalues. *)
Definition as_lvalue (a : arg) : arg :=
  match a with Rvalue r => Lvalue r | _ => a end.
Definition as_rvalue (a : arg) : arg :=
  match a with Lvalue r => Rvalue r | _ => a end.

(** [new (buf) T(std::forward<Args>(args)...)] *)
Definition ForwardConstruct (buf : ptr) (a : arg) : M unit :=
  v <- init_from (Some buf) a ;; place buf v.

(** [new (buf) T((args)...)] *)
Definition CopyConstruct (buf : ptr) (a : arg) : M unit :=
  v <- init_from (Some buf) (as_lvalue a) ;; place buf v.

(** [new (buf) T(std::move(args)...)] *)
Definition MoveConstruct (buf : ptr) (a : arg) : M unit :=
  v <- init_from (Some buf) (as_rvalue a) ;; place buf v.

(** [buf->~T()].  The call is recorded with whether an object was there; on a
    slot without an object it leaves storage as it is. *)
Definition Destroy (buf : ptr) : M unit :=
  λ σ, (Ok tt,
        set_trace (cons (EvDestroy (Some buf) (bool_decide (is_Some (objects σ !! buf)))))
          (set_objects (delete buf) σ)).

(** Copy-assignment and move-assignment of one element to the object at [dst],
    which has to hold an object.  A throwing assignment changes neither side. *)
Definition elem_copy_assign (dst : ptr) (src : ref) : M unit :=
  fetch dst ;;
  v <- value_of src ;;
  record (EvCopyAssign (ref_ptr src) (Some dst)) ;; element_op false ;;
  place dst v.

Definition elem_move_assign (dst : ptr) (src : ref) : M unit :=
  fetch dst ;;
  v <- value_of src ;;
  record (EvMoveAssign (ref_ptr src) (Some dst)) ;; element_op false ;;
  leave_moved src v ;;
  place dst v.

(** ** Library algorithms on raw storage *)

(** [std::destroy_n(first, n)] *)
Fixpoint destroy_n (first : ptr) (n : nat) : M unit :=
  match n with
  | 0 => ret tt
  | S n' => Destroy first ;; destroy_n (first +ₚ 1) n'
  end.

(** [std::uninitialized_move_n] passes each source as an rvalue,
    [std::uninitialized_copy_n] as an lvalue. *)
Definition forward_as (by_move : bool) (r : ref) : arg :=
  if by_move then Rvalue r else Lvalue r.
Arguments forward_as : simpl never.

(** The loop of [std::uninitialized_copy_n] and [std::uninitialized_move_n]:
    slot [k] is next, [n] are left; when a constructor throws, the [k] objects
    already built at [d_first] are destroyed and the exception goes on. *)
Fixpoint uninitialized_from (by_move : bool) (first d_first : ptr) (k n : nat) : M unit :=
  match n with
  | 0 => ret tt
  | S n' =>
      try_catch (ForwardConstruct (d_first +ₚ k) (forward_as by_move (AtSlot (first +ₚ k))))
                (λ e, destroy_n d_first k ;; throw e) ;;
      uninitialized_from by_move first d_first (S k) n'
  end.

(** The loop of [std::uninitialized_value_construct_n], with the same clean-up. *)
Fixpoint uninitialized_value_construct_from (first : ptr) (k n : nat) : M unit :=
  match n with
  | 0 => ret tt
  | S n' =>
      try_catch (record (EvValueConstruct (Some (first +ₚ k))) ;; element_op false ;;
                 place (first +ₚ k) value_init)
                (λ e, destroy_n first k ;; throw e) ;;
      uninitialized_value_construct_from first (S k) n'
  end.

Definition uninitialized_move_n (first : ptr) (n : nat) (d_first : ptr) : M unit :=
  uninitialized_from true first d_first 0 n.
Definition uninitialized_copy_n (first : ptr) (n : nat) (d_first : ptr) : M unit :=
  uninitialized_from false first d_first 0 n.
Definition uninitialized_value_construct_n (first : ptr) (n : nat) : M unit :=
  uninitialized_value_construct_from first 0 n.

(** [std::move(first, last, d_first)] and [std::copy(first, last, d_first)]:
    [last - first] assignments, front to back.  When [last] lies before
    [first] the distance is not positive and nothing is assigned. *)
Fixpoint move_range (first d_first : ptr) (n : nat) : M unit :=
  match n with
  | 0 => ret tt
  | S n' => elem_move_assign d_first (AtSlot first) ;;
            move_range (first +ₚ 1) (d_first +ₚ 1) n'
  end.

Fixpoint copy_range (first d_first : ptr) (n : nat) : M unit :=
  match n with
  | 0 => ret tt
  | S n' => elem_copy_assign d_first (AtSlot first) ;;
            copy_range (first +ₚ 1) (d_first +ₚ 1) n'
  end.

Definition std_move (first last d_first : ptr) : M unit :=
  move_range first d_first (last.2 - first.2).
Definition std_copy (first last d_first : ptr) : M unit :=
  copy_range first d_first (last.2 - first.2).

(** [p - 1] *)
Definition ptr_pred (p : ptr) : M ptr :=
  match p.2 with
  | 0 => fault_ BeforeBlock
  | S i => ret (p.1, i)
  end.

(** [std::move_backward(first, last, d_last)]: [last - first] assignments, back
    to front; nothing when [last] lies before [first]. *)
Fixpoint move_backward_range (last d_last : ptr) (n : nat) : M unit :=
  match n with
  | 0 => ret tt
  | S n' =>
      last' <- ptr_pred last ;;
      d_last' <- ptr_pred d_last ;;
      elem_move_assign d_last' (AtSlot last') ;;
      move_backward_range last' d_last' n'
  end.

Definition std_move_backward (first last d_last : ptr) : M unit :=
  move_backward_range last d_last (last.2 - first.2).

(** ** RawMemory *)

(** [Allocate(n)]: a fresh block, or the null pointer when [n] is 0. *)
Definition Allocate (n : nat) : M nat :=
  λ σ, if decide (n = 0) then (Ok 0, σ)
       else (Ok (S (allocated σ)),
             mkState (vectors σ) (objects σ) (S (allocated σ)) (ticks σ) (trace σ)).

(** [Deallocate(buf)]: the storage is released; whatever objects were still in
    it are gone without a destructor call. *)
Definition Deallocate (buf : nat) : M unit :=
  λ σ, (Ok tt, set_objects (filter (λ kv, kv.1.1 ≠ buf)) σ).

(** [explicit RawMemory(size_t capacity)] *)
Definition RawMemory_ctor (capacity : nat) : M RawMemory :=
  b <- Allocate capacity ;; ret (mkRawMemory b capacity).

(** [~RawMemory()] *)
Definition RawMemory_dtor (m : RawMemory) : M unit :=
  Deallocate (buffer_ m).

(** [T* operator+(size_t offset)] *)
Definition RawMemory_plus (m : RawMemory) (offset : nat) : M ptr :=
  assert_ (bool_decide (offset ≤ capacity_ m)) ;;
  ret (buffer_ m, offset).

(** [T& operator[](size_t index)] *)
Definition RawMemory_index (m : RawMemory) (index : nat) : M ptr :=
  assert_ (bool_decide (index < capacity_ m)) ;;
  ret (buffer_ m, index).

Definition GetAddress (m : RawMemory) : ptr := (buffer_ m, 0).

(** ** Vector *)

Definition load (this : nat) : M Vector :=
  λ σ, match vectors σ !! this with
       | Some v => (Ok v, σ)
       | None => (Fault (NoVector this), σ)
       end.

Definition store (this : nat) (v : Vector) : M unit :=
  λ σ, (Ok tt, set_vectors <[this := v]> σ).

Definition set_size (this : nat) (n : nat) : M unit :=
  v <- load this ;; store this (mkVector (data_ v) n).

Definition set_data (this : nat) (m : RawMemory) : M unit :=
  v <- load this ;; store this (mkVector m (size_ v)).

Definition Size (this : nat) : M nat := v <- load this ;; ret (size_ v).
Definition Capacity (this : nat) : M nat := v <- load this ;; ret (capacity_ (data_ v)).

(** [begin()] is [data_ + 0], [end()] is [data_ + size_]. *)
Definition begin_ (this : nat) : M ptr :=
  v <- load this ;; RawMemory_plus (data_ v) 0.
Definition end_ (this : nat) : M ptr :=
  v <- load this ;; RawMemory_plus (data_ v) (size_ v).

(** [T& operator[](size_t index)] *)
Definition Vector_index (this : nat) (index : nat) : M ptr :=
  v <- load this ;;
  assert_ (bool_decide (index < size_ v)) ;;
  RawMemory_index (data_ v) index.

(** The test of the two [if constexpr]: relocate by move. *)
Definition relocate_by_move : bool :=
  nothrow_move_constructible || negb copy_constructible.

(** [void Swap(Vector& other)]: [data_.Swap(other.data_)], then
    [std::swap(size_, other.size_)]. *)
Definition Swap (this other : nat) : M unit :=
  v <- load this ;; o <- load other ;;
  set_data this (data_ o) ;; set_data other (data_ v) ;;
  v <- load this ;; o <- load other ;;
  set_size this (size_ o) ;; set_size other (size_ v).

(** [void Reserve(size_t new_capacity)] *)
Definition Reserve (this : nat) (new_capacity : nat) : M unit :=
  v <- load this ;;
  if decide (new_capacity ≤ capacity_ (data_ v)) then ret tt
  else
    new_data <- RawMemory_ctor new_capacity ;;
    unwinding (RawMemory_dtor new_data)
      (if relocate_by_move
       then uninitialized_move_n (GetAddress (data_ v)) (size_ v) (GetAddress new_data)
       else uninitialized_copy_n (GetAddress (data_ v)) (size_ v) (GetAddress new_data)) ;;
    (* new_data.Swap(data_): from here on new_data names the old block *)
    set_data this new_data ;;
    let new_data := data_ v in
    destroy_n (GetAddress new_data) (size_ v) ;;
    RawMemory_dtor new_data.

(** An address not used by any [Vector] object, for a local in a method. *)
Definition local_addr (σ : state) : nat :=
  S (map_fold (λ a _ acc, a `max` acc) 0 (vectors σ)).

Definition with_local_addr {A} (k : nat → M A) : M A :=
  λ σ, k (local_addr σ) σ.

Definition forget (this : nat) : M unit :=
  λ σ, (Ok tt, set_vectors (delete this) σ).


(** [Vector(const Vector& other)] *)
Definition Vector_copy_ctor (this : nat) (other : nat) : M unit :=
  o <- load other ;;
  data <- RawMemory_ctor (size_ o) ;;
  unwinding (RawMemory_dtor data)
    (uninitialized_copy_n (GetAddress (data_ o)) (size_ o) (GetAddress data)) ;;
  store this (mkVector data (size_ o)).

(** [Vector(Vector&& other) noexcept]: the members get their default values,
    then [Swap(other)]. *)
Definition Vector_move_ctor (this : nat) (other : nat) : M unit :=
  store this Vector_default ;;
  Swap this other.

(** [~Vector()], followed by the destructor of the member [data_]. *)
Definition Vector_dtor (this : nat) : M unit :=
  v <- load this ;;
  destroy_n (GetAddress (data_ v)) (size_ v) ;;
  RawMemory_dtor (data_ v) ;;
  forget this.

(** The two loops [for (i = 0; i < n; ++i) data_[i] = rhs[i];] of copy
    assignment, from index [i] with [n] rounds left. *)
Fixpoint assign_prefix (this rhs : nat) (i n : nat) : M unit :=
  match n with
  | 0 => ret tt
  | S n' =>
      v <- load this ;;
      dst <- RawMemory_index (data_ v) i ;;
      src <- Vector_index rhs i ;;
      elem_copy_assign dst (AtSlot src) ;;
      assign_prefix this rhs (S i) n'
  end.

(** [Vector& operator=(const Vector& rhs)] *)
Definition copy_assign (this rhs : nat) : M unit :=
  if decide (this ≠ rhs) then
    v <- load this ;; r <- load rhs ;;
    if decide (capacity_ (data_ v) < size_ r) then
      with_local_addr (λ rhs_copy,
        Vector_copy_ctor rhs_copy rhs ;;
        Swap this rhs_copy ;;
        Vector_dtor rhs_copy)
    else if decide (size_ r < size_ v) then
      assign_prefix this rhs 0 (size_ r) ;;
      first <- RawMemory_plus (data_ v) (size_ r) ;;
      destroy_n first (size_ v - size_ r) ;;
      set_size this (size_ r)
    else
      assign_prefix this rhs 0 (size_ v) ;;
      uninitialized_copy_n (GetAddress (data_ r) +ₚ size_ v) (size_ r - size_ v)
                           (GetAddress (data_ v) +ₚ size_ v) ;;
      set_size this (size_ r)
  else ret tt.

(** [Vector& operator=(Vector&& rhs) noexcept] *)
Definition move_assign (this rhs : nat) : M unit :=
  Swap this rhs.

(** [void Resize(size_t new_size)] *)
Definition Resize (this : nat) (new_size : nat) : M unit :=
  v <- load this ;;
  if decide (new_size ≤ size_ v) then
    first <- RawMemory_plus (data_ v) new_size ;;
    destroy_n first (size_ v - new_size) ;;
    set_size this new_size
  else
    let count_new_elem := new_size - size_ v in
    cap <- Capacity this ;;
    (if decide (cap < new_size) then Reserve this new_size else ret tt) ;;
    v <- load this ;; cap <- Capacity this ;;
    first <- RawMemory_plus (data_ v) (cap - count_new_elem) ;;
    uninitialized_value_construct_n first count_new_elem ;;
    set_size this new_size.

(** [void PopBack() noexcept]: [Destroy(data_ + size_-1)] takes the address
    [data_ + size_] and steps one element back. *)
Definition PopBack (this : nat) : M unit :=
  v <- load this ;;
  e <- RawMemory_plus (data_ v) (size_ v) ;;
  last <- ptr_pred e ;;
  Destroy last ;;
  set_size this (size_ v - 1).

(** [iterator Erase(const_iterator pos)]; [pos_t] is [pos - data_.GetAddress()]. *)
Definition Erase (this : nat) (pos_t : nat) : M ptr :=
  v <- load this ;;
  begin_ this ;; end_ this ;;
  assert_ (bool_decide (pos_t < size_ v)) ;;
  first <- RawMemory_plus (data_ v) pos_t ;;
  last <- RawMemory_plus (data_ v) (size_ v) ;;
  d_first <- RawMemory_plus (data_ v) pos_t ;;
  std_move (first +ₚ 1) last d_first ;;
  e <- RawMemory_plus (data_ v) (size_ v) ;;
  back <- ptr_pred e ;;
  Destroy back ;;
  set_size this (size_ v - 1) ;;
  RawMemory_plus (data_ v) pos_t.

(** The growth branch shared word for word by [PushBack], [EmplaceBack] and
    (with [pos_t] in place of [size_]) [Emplace] is written out in each. *)

(** [template <typename V> void PushBack(V&& value)] *)
Definition PushBack (this : nat) (value : arg) : M unit :=
  v <- load this ;;
  (if decide (size_ v = capacity_ (data_ v)) then
     new_data <- RawMemory_ctor (if decide (size_ v = 0) then 1 else size_ v * 2) ;;
     unwinding (RawMemory_dtor new_data)
       (slot <- RawMemory_plus new_data (size_ v) ;;
        try_catch (ForwardConstruct slot value)
                  (λ e, Destroy slot ;; throw e) ;;
        if relocate_by_move
        then uninitialized_move_n (GetAddress (data_ v)) (size_ v) (GetAddress new_data)
        else uninitialized_copy_n (GetAddress (data_ v)) (size_ v) (GetAddress new_data)) ;;
     (* data_.Swap(new_data): from here on new_data names the old block *)
     set_data this new_data ;;
     let new_data := data_ v in
     destroy_n (GetAddress new_data) (size_ v) ;;
     RawMemory_dtor new_data
   else
     slot <- RawMemory_plus (data_ v) (size_ v) ;;
     try_catch (ForwardConstruct slot value)
               (λ e, Destroy slot ;; throw e)) ;;
  set_size this (S (size_ v)).

(** [template <typename... Args> T& EmplaceBack(Args&&... args)] *)
Definition EmplaceBack (this : nat) (args : arg) : M ptr :=
  v <- load this ;;
  (if decide (size_ v = capacity_ (data_ v)) then
     new_data <- RawMemory_ctor (if decide (size_ v = 0) then 1 else size_ v * 2) ;;
     unwinding (RawMemory_dtor new_data)
       (slot <- RawMemory_plus new_data (size_ v) ;;
        try_catch (ForwardConstruct slot args)
                  (λ e, Destroy slot ;; throw e) ;;
        if relocate_by_move
        then uninitialized_move_n (GetAddress (data_ v)) (size_ v) (GetAddress new_data)
        else uninitialized_copy_n (GetAddress (data_ v)) (size_ v) (GetAddress new_data)) ;;
     set_data this new_data ;;
     let new_data := data_ v in
     destroy_n (GetAddress new_data) (size_ v) ;;
     RawMemory_dtor new_data
   else
     slot <- RawMemory_plus (data_ v) (size_ v) ;;
     try_catch (ForwardConstruct slot args)
               (λ e, Destroy slot ;; throw e)) ;;
  set_size this (S (size_ v)) ;;
  v <- load this ;;
  RawMemory_index (data_ v) (size_ v - 1).

(** [T temp(args...)]: the local lives outside element storage. *)
Definition construct_temp (args : arg) : M T := init_from None args.
Definition destroy_temp : M unit := record (EvDestroy None true).

(** The recovery handler of the non-growth branch of [Emplace]. *)
Definition Emplace_recover (v : Vector) (pos_t : nat) : M unit :=
  slot <- RawMemory_plus (data_ v) pos_t ;;
  Destroy slot ;;
  if relocate_by_move then
    slot <- RawMemory_plus (data_ v) pos_t ;;
    from <- RawMemory_index (data_ v) (size_ v + pos_t + 1) ;;
    ForwardConstruct slot (Rvalue (AtSlot from)) ;;
    first <- RawMemory_plus (data_ v) pos_t ;;
    last <- RawMemory_plus (data_ v) (size_ v) ;;
    d_first <- RawMemory_plus (data_ v) pos_t ;;
    std_move (first +ₚ 2) last (d_first +ₚ 1)
  else
    slot <- RawMemory_plus (data_ v) pos_t ;;
    from <- RawMemory_index (data_ v) (size_ v + pos_t + 1) ;;
    CopyConstruct slot (Rvalue (AtSlot from)) ;;
    first <- RawMemory_plus (data_ v) pos_t ;;
    last <- RawMemory_plus (data_ v) (size_ v) ;;
    d_first <- RawMemory_plus (data_ v) pos_t ;;
    std_copy (first +ₚ 2) last (d_first +ₚ 1).

(** [template <typename... Args> iterator Emplace(const_iterator pos, Args&&... args)];
    [pos_t] is [pos - begin()]. *)
Definition Emplace (this : nat) (pos_t : nat) (args : arg) : M ptr :=
  v <- load this ;;
  (if decide (size_ v = capacity_ (data_ v)) then
     new_data <- RawMemory_ctor (if decide (size_ v = 0) then 1 else size_ v * 2) ;;
     unwinding (RawMemory_dtor new_data)
       (slot <- RawMemory_plus new_data pos_t ;;
        try_catch (ForwardConstruct slot args)
                  (λ e, Destroy slot ;; throw e) ;;
        if relocate_by_move then
          uninitialized_move_n (GetAddress (data_ v)) pos_t (GetAddress new_data) ;;
          first <- RawMemory_plus (data_ v) pos_t ;;
          d_first <- RawMemory_plus new_data pos_t ;;
          uninitialized_move_n first (size_ v - pos_t) (d_first +ₚ 1)
        else
          uninitialized_copy_n (GetAddress (data_ v)) pos_t (GetAddress new_data) ;;
          first <- RawMemory_plus (data_ v) pos_t ;;
          d_first <- RawMemory_plus new_data pos_t ;;
          uninitialized_copy_n first (size_ v - pos_t) (d_first +ₚ 1)) ;;
     (* data_.Swap(new_data): from here on new_data names the old block *)
     set_data this new_data ;;
     let new_data := data_ v in
     destroy_n (GetAddress new_data) (size_ v) ;;
     RawMemory_dtor new_data
   else
     try_catch
       (if decide (size_ v ≠ 0) then
          temp <- construct_temp args ;;
          unwinding destroy_temp
            (slot <- RawMemory_plus (data_ v) (size_ v) ;;
             back <- RawMemory_index (data_ v) (size_ v - 1) ;;
             ForwardConstruct slot (Rvalue (AtSlot back)) ;;
             first <- RawMemory_plus (data_ v) pos_t ;;
             last <- RawMemory_plus (data_ v) (size_ v - 1) ;;
             d_last <- RawMemory_plus (data_ v) (size_ v) ;;
             std_move_backward first last d_last ;;
             target <- RawMemory_index (data_ v) pos_t ;;
             elem_move_assign target (Outside temp)) ;;
          destroy_temp
        else
          slot <- RawMemory_plus (data_ v) pos_t ;;
          if relocate_by_move
          then ForwardConstruct slot args
          else CopyConstruct slot args)
       (λ e, Emplace_recover v pos_t ;; throw e)) ;;
  set_size this (S (size_ v)) ;;
  v <- load this ;;
  RawMemory_plus (data_ v) pos_t.

(** [template <typename V> iterator Insert(const_iterator pos, V&& value)] *)
Definition Insert (this : nat) (pos_t : nat) (value : arg) : M ptr :=
  Emplace this pos_t value.

(** ** Observing a state *)

(** The slots [lo], ..., [lo + n - 1] of block [b]: what each holds, if anything. *)
Definition slots (σ : state) (b : nat) (lo n : nat) : list (option T) :=
  (λ i, objects σ !! (b, i)) <$> seq lo n.

(** The user-visible sequence of the array at [this]: its first [size_] slots. *)
Definition contents (σ : state) (this : nat) : option (list (option T)) :=
  v ← vectors σ !! this; Some (slots σ (buffer_ (data_ v)) 0 (size_ v)).

Definition initial : state := mkState ∅ ∅ 0 0 [].

(** Running a call for its final state. *)
Definition exec {A} (m : M A) (σ : state) : state := (m σ).2.
Definition result {A} (m : M A) (σ : state) : outcome A := (m σ).1.

(** ** Vocabulary of the properties *)

(** An argument that refers to no element slot: a parameter pack, or an object
    of the caller. *)
Definition caller_owned (a : arg) : Prop :=
  match a with
  | Pack _ | Lvalue (Outside _) | Rvalue (Outside _) => True
  | _ => False
  end.

Definition arg_value (a : arg) : option T :=
  match a with
  | Pack v | Lvalue (Outside v) | Rvalue (Outside v) => Some v
  | _ => None
  end.

(** The event [init_from dst a] records, and whether the constructor it calls
    is declared non-throwing. *)
Definition init_event (dst : option ptr) (a : arg) : event :=
  match a with
  | Pack _ => EvConstruct dst
  | Lvalue r => EvCopyConstruct (ref_ptr r) dst
  | Rvalue r => EvMoveConstruct (ref_ptr r) dst
  end.

Definition init_nothrow (a : arg) : bool :=
  match a with Rvalue _ => nothrow_move_constructible | _ => false end.

(** The state after one element operation that recorded [ev]. *)
Definition ticked (ev : event) (σ : state) : state :=
  mkState (vectors σ) (objects σ) (allocated σ) (S (ticks σ)) (ev :: trace σ).

(** A relocation is the construction of an object from an element slot. *)
Definition is_relocation (e : event) : bool :=
  match e with
  | EvCopyConstruct (Some _) _ | EvMoveConstruct (Some _) _ => true
  | _ => false
  end.

Definition relocations (evs : list event) : list event :=
  filter (λ e, is_relocation e = true) evs.

(** The transfer of the object at [src] to [dst], by move or by copy. *)
Definition transfer (by_move : bool) (src dst : ptr) : event :=
  if by_move then EvMoveConstruct (Some src) (Some dst)
  else EvCopyConstruct (Some src) (Some dst).

(** The transfers of [n] objects from [first] on to [d_first] on, in order. *)
Definition transfer_plan (by_move : bool) (first d_first : ptr) (n : nat) : list event :=
  (λ i, transfer by_move (first +ₚ i) (d_first +ₚ i)) <$> seq 0 n.

(** A call whose final state is always related to its initial state by [R]. *)
Definition preserves {A} (R : relation state) (m : M A) : Prop :=
  ∀ σ, R σ (m σ).2.

(** A call that never ends by an exception. *)
Definition no_throw {A} (m : M A) : Prop :=
  ∀ σ e, (m σ).1 ≠ Throw e.

(** Only the slots in [P] may differ, no [Vector] object does, no block is
    handed out, and the trace is continued. *)
Definition keeps (P : ptr → Prop) (σ σ' : state) : Prop :=
  vectors σ' = vectors σ ∧
  allocated σ' = allocated σ ∧
  (∀ p, ¬ P p → objects σ' !! p = objects σ !! p) ∧
  ∃ evs, trace σ' = evs ++ trace σ.

(** The calls that add an element or reserve storage, as one type. *)
Inductive call :=
| CallPushBack (value : arg)
| CallEmplaceBack (args : arg)
| CallEmplace (pos_t : nat) (args : arg)
| CallInsert (pos_t : nat) (value : arg)
| CallReserve (new_capacity : nat).

Definition run (c : call) (this : nat) : M unit :=
  match c with
  | CallPushBack a => PushBack this a
  | CallEmplaceBack a => EmplaceBack this a ;; ret tt
  | CallEmplace pos_t a => Emplace this pos_t a ;; ret tt
  | CallInsert pos_t a => Insert this pos_t a ;; ret tt
  | CallReserve n => Reserve this n
  end.

(** [PushBack] and [EmplaceBack]. *)
Definition is_append (c : call) : bool :=
  match c with CallPushBack _ | CallEmplaceBack _ => true | _ => false end.

(** The argument of a call that adds an element, and the slot the element
    goes to in an array of [size] elements. *)
Definition call_arg (c : call) : option arg :=
  match c with
  | CallPushBack a | CallEmplaceBack a | CallEmplace _ a | CallInsert _ a => Some a
  | CallReserve _ => None
  end.



(** The part of the growth branch of [Emplace] that fills the new block: the
    new element first, then the elements before and after it. *)
Definition Emplace_fill (v : Vector) (new_data : RawMemory) (pos_t : nat) (args : arg)
    : M unit :=
  slot <- RawMemory_plus new_data pos_t ;;
  try_catch (ForwardConstruct slot args)
            (λ e, Destroy slot ;; throw e) ;;
  if relocate_by_move then
    uninitialized_move_n (GetAddress (data_ v)) pos_t (GetAddress new_data) ;;
    first <- RawMemory_plus (data_ v) pos_t ;;
    d_first <- RawMemory_plus new_data pos_t ;;
    uninitialized_move_n first (size_ v - pos_t) (d_first +ₚ 1)
  else
    uninitialized_copy_n (GetAddress (data_ v)) pos_t (GetAddress new_data) ;;
    first <- RawMemory_plus (data_ v) pos_t ;;
    d_first <- RawMemory_plus new_data pos_t ;;
    uninitialized_copy_n first (size_ v - pos_t) (d_first +ₚ 1).

(** The same part of [PushBack] and [EmplaceBack]. *)
Definition PushBack_fill (v : Vector) (new_data : RawMemory) (value : arg) : M unit :=
  slot <- RawMemory_plus new_data (size_ v) ;;
  try_catch (ForwardConstruct slot value)
            (λ e, Destroy slot ;; throw e) ;;
  if relocate_by_move
  then uninitialized_move_n (GetAddress (data_ v)) (size_ v) (GetAddress new_data)
  else uninitialized_copy_n (GetAddress (data_ v)) (size_ v) (GetAddress new_data).

(** The capacity a growing array of [size] elements gets. *)
Definition grown (size : nat) : nat := if decide (size = 0) then 1 else size * 2.

(** The same part of [Reserve]. *)
Definition Reserve_fill (v : Vector) (new_data : RawMemory) : M unit :=
  if relocate_by_move
  then uninitialized_move_n (GetAddress (data_ v)) (size_ v) (GetAddress new_data)
  else uninitialized_copy_n (GetAddress (data_ v)) (size_ v) (GetAddress new_data).

(** What follows the filling: the blocks are exchanged, the old elements
    destroyed, the old block released. *)
Definition retire_old (this : nat) (v : Vector) (new_data : RawMemory) : M unit :=
  set_data this new_data ;;
  destroy_n (GetAddress (data_ v)) (size_ v) ;;
  RawMemory_dtor (data_ v).

(** The growth branch common to [Reserve], [PushBack], [EmplaceBack] and
    [Emplace]: a new block of [capacity] slots is filled by [fill] and takes
    the place of the old one. *)
Definition grow_with (this : nat) (v : Vector) (capacity : nat)
    (fill : RawMemory → M unit) : M unit :=
  new_data <- RawMemory_ctor capacity ;;
  unwinding (RawMemory_dtor new_data) (fill new_data) ;;
  retire_old this v new_data.

(** How each call fits [grow_with]: the condition under which it grows, the
    capacity it asks for, how it fills the new block, what it does after. *)
Definition grows (c : call) (v : Vector) : Prop :=
  match c with
  | CallReserve n => capacity_ (data_ v) < n
  | _ => size_ v = capacity_ (data_ v)
  end.

Definition new_capacity (c : call) (v : Vector) : nat :=
  match c with
  | CallReserve n => n
  | _ => grown (size_ v)
  end.

Definition fill_of (c : call) (v : Vector) (new_data : RawMemory) : M unit :=
  match c with
  | CallPushBack a | CallEmplaceBack a => PushBack_fill v new_data a
  | CallEmplace pos_t a | CallInsert pos_t a => Emplace_fill v new_data pos_t a
  | CallReserve _ => Reserve_fill v new_data
  end.

Definition tail_of (c : call) (this : nat) (v : Vector) : M unit :=
  match c with
  | CallPushBack _ => set_size this (S (size_ v))
  | CallEmplaceBack _ =>
      set_size this (S (size_ v)) ;;
      (v' <- load this ;; RawMemory_index (data_ v') (size_ v' - 1)) ;; ret tt
  | CallEmplace pos_t _ | CallInsert pos_t _ =>
      set_size this (S (size_ v)) ;;
      (v' <- load this ;; RawMemory_plus (data_ v') pos_t) ;; ret tt
  | CallReserve _ => ret tt
  end.

(** The relocations a growing call is to perform, in order, when the new block
    is [new]: every element keeps its index, except that [Emplace] and
    [Insert] leave slot [pos_t] to the new element. *)
Definition relocation_plan (c : call) (v : Vector) (new : nat) : list event :=
  let old := buffer_ (data_ v) in
  match c with
  | CallEmplace pos_t _ | CallInsert pos_t _ =>
      transfer_plan relocate_by_move (old, 0) (new, 0) pos_t
      ++ transfer_plan relocate_by_move (old, pos_t) (new, pos_t + 1) (size_ v - pos_t)
  | _ => transfer_plan relocate_by_move (old, 0) (new, 0) (size_ v)
  end.

(** Between [σ] and [σ'] the relocations [l] were recorded, oldest first. *)
Definition relocates (σ σ' : state) (l : list event) : Prop :=
  ∃ evs, trace σ' = evs ++ trace σ ∧ rev (relocations evs) = l.

(** Run from [σ], the call [m] performs a prefix of the relocations [plan],
    and all of them when it returns. *)
Definition logs {A} (m : M A) (σ : state) (plan : list event) : Prop :=
  ∃ l, relocates σ (m σ).2 l ∧ l `prefix_of` plan ∧ ∀ a, (m σ).1 = Ok a → l = plan.

(** The array at [this] is [v], its block was handed out by [Allocate], and
    its first [size_] slots hold objects. *)
Definition well_formed (σ : state) (this : nat) (v : Vector) : Prop :=
  vectors σ !! this = Some v ∧
  size_ v ≤ capacity_ (data_ v) ∧
  buffer_ (data_ v) ≤ allocated σ ∧
  ∀ i, i < size_ v → is_Some (objects σ !! (buffer_ (data_ v), i)).

(** A sequence of calls on one array. *)
Fixpoint run_all (cs : list call) (this : nat) : M unit :=
  match cs with
  | [] => ret tt
  | c :: cs' => run c this ;; run_all cs' this
  end.

(** The doubling rule in the words of the specification: the capacity starts
    at 0; an append that finds the array full makes it 1 if it was 0 and twice
    what it was otherwise. *)
Fixpoint capacity_after (n : nat) : nat :=
  match n with
  | 0 => 0
  | S n' =>
      let old := capacity_after n' in
      if decide (n' = old) then (if decide (old = 0) then 1 else old * 2) else old
  end.

(** The invariant of the data model: [size_ <= capacity_], the first [size_]
    slots of the block hold objects, and no other slot of the block does. *)
Definition invariant (σ : state) (this : nat) : Prop :=
  match vectors σ !! this with
  | Some v =>
      size_ v ≤ capacity_ (data_ v) ∧
      (∀ i, i < size_ v → is_Some (objects σ !! (buffer_ (data_ v), i))) ∧
      map_Forall (λ p _, p.1 = buffer_ (data_ v) → p.2 < size_ v) (objects σ)
  | None => False
  end.


(** ** The remaining members of the two classes *)

(** [void RawMemory::Swap(RawMemory& other) noexcept]: [std::swap] of the two
    pointers, then of the two capacities.  The result is the pair of objects
    after the exchange, [this] first. *)
Definition RawMemory_Swap (this other : RawMemory) : RawMemory * RawMemory :=
  let '(this, other) :=
    (mkRawMemory (buffer_ other) (capacity_ this),
     mkRawMemory (buffer_ this) (capacity_ other)) in
  (mkRawMemory (buffer_ this) (capacity_ other),
   mkRawMemory (buffer_ other) (capacity_ this)).

(** [RawMemory(RawMemory&& other) noexcept]: the members of the new object
    start from their default initialisers, so the test [if(buffer_)] sees the
    null pointer. *)
Definition RawMemory_move_ctor (other : RawMemory) : M (RawMemory * RawMemory) :=
  let this := RawMemory_default in
  (if decide (buffer_ this ≠ 0) then Deallocate (buffer_ this) else ret tt) ;;
  ret (RawMemory_Swap this other).

(** [RawMemory& operator=(RawMemory&& rhs) noexcept] *)
Definition RawMemory_move_assign (this rhs : RawMemory) : M (RawMemory * RawMemory) :=
  ret (RawMemory_Swap this rhs).

(** [size_t RawMemory::Capacity() const] *)
Definition RawMemory_Capacity (m : RawMemory) : nat := capacity_ m.

(** [cbegin()] and [cend()], to which the [const] overloads of [begin()] and
    [end()] forward, compute the same addresses. *)
Definition cbegin (this : nat) : M ptr :=
  v <- load this ;; RawMemory_plus (data_ v) 0.
Definition cend (this : nat) : M ptr :=
  v <- load this ;; RawMemory_plus (data_ v) (size_ v).

(** [T& Back() noexcept] is [data_[size_ - 1]].  On an empty array the index
    [size_ - 1] wraps around to the largest [size_t], which is below no
    capacity, so the [assert] of [RawMemory::operator[]] fails. *)
Definition Back (this : nat) : M ptr :=
  v <- load this ;;
  match size_ v with
  | 0 => fault_ AssertionFailed
  | S index => RawMemory_index (data_ v) index
  end.

(** ** Arrays and the sequences they hold *)

(** The array at [this] is the object [v] and holds the elements of [l], in
    order: [v] respects its capacity, its block was handed out by [Allocate]
    (or is null), and its first [size_] slots hold the objects of [l]. *)
Definition holds (σ : state) (this : nat) (v : Vector) (l : list T) : Prop :=
  vectors σ !! this = Some v ∧
  size_ v ≤ capacity_ (data_ v) ∧
  buffer_ (data_ v) ≤ allocated σ ∧
  slots σ (buffer_ (data_ v)) 0 (size_ v) = Some <$> l.

(** Every object lives in a block that [Allocate] handed out. *)
Definition heap_ok (σ : state) : Prop :=
  map_Forall (λ p _, p.1 ≤ allocated σ) (objects σ).

(** [n] calls of the destructor on the live objects of slots [lo], [lo + 1],
    ... of block [b], as they appear in the trace: oldest first. *)
Definition destroys (b lo n : nat) : list event :=
  (λ i, EvDestroy (Some (b, i)) true) <$> seq lo n.

Definition copies (src from dst lo n : nat) : list event :=
  (λ i, EvCopyConstruct (Some (src, from + i)) (Some (dst, i))) <$> seq lo n.

(** The value a constructor reads from its argument when the argument is not
    changed by the construction: a parameter pack, an object of the caller,
    or an element slot passed as [const T&]. *)
Definition value_read (σ : state) (a : arg) : option T :=
  match a with
  | Pack v | Lvalue (Outside v) | Rvalue (Outside v) => Some v
  | Lvalue (AtSlot p) => objects σ !! p
  | Rvalue (AtSlot _) => None
  end.

(** ** The invariant, one call at a time *)





(** * Properties *)

(** ** Running the monad *)

Lemma bind_Ok {A B} (m : M A) (k : A → M B) σ a σ' :
  m σ = (Ok a, σ') → bind m k σ = k a σ'.
Proof. unfold bind. by intros ->. Qed.



Lemma load_Some this v σ :
  vectors σ !! this = Some v → load this σ = (Ok v, σ).
Proof. unfold load. by intros ->. Qed.

Lemma set_data_Some this m v σ :
  vectors σ !! this = Some v →
  set_data this m σ = (Ok tt, set_vectors <[this := mkVector m (size_ v)]> σ).
Proof. intros Hv. unfold set_data. by rewrite (bind_Ok _ _ _ _ _ (load_Some _ _ _ Hv)). Qed.

Lemma set_size_Some this n v σ :
  vectors σ !! this = Some v →
  set_size this n σ = (Ok tt, set_vectors <[this := mkVector (data_ v) n]> σ).
Proof. intros Hv. unfold set_size. by rewrite (bind_Ok _ _ _ _ _ (load_Some _ _ _ Hv)). Qed.

(** *** Calls that keep a relation, calls that do not throw *)

Section Closure.
Context (R : relation state) `{!PreOrder R}.

Lemma preserves_ret {A} (a : A) : preserves R (ret a).
Proof. intros σ. reflexivity. Qed.
Lemma preserves_throw {A} e : preserves R (@throw A e).
Proof. intros σ. reflexivity. Qed.
Lemma preserves_fault {A} f : preserves R (@fault_ A f).
Proof. intros σ. reflexivity. Qed.
Lemma preserves_assert b : preserves R (assert_ b).
Proof. intros σ. destruct b; reflexivity. Qed.

Lemma preserves_bind {A B} (m : M A) (k : A → M B) :
  preserves R m → (∀ a, preserves R (k a)) → preserves R (bind m k).
Proof.
  intros Hm Hk σ. specialize (Hm σ). unfold bind.
  destruct (m σ) as [[a|e|f] σ1]; simpl in *; try done.
  etrans; [done|apply Hk].
Qed.

Lemma preserves_try_catch {A} (m : M A) h :
  preserves R m → (∀ e, preserves R (h e)) → preserves R (try_catch m h).
Proof.
  intros Hm Hh σ. specialize (Hm σ). unfold try_catch.
  destruct (m σ) as [[a|e|f] σ1]; simpl in *; try done.
  etrans; [done|apply Hh].
Qed.

Lemma preserves_unwinding {A} c (m : M A) :
  preserves R c → preserves R m → preserves R (unwinding c m).
Proof.
  intros Hc Hm. apply preserves_try_catch; [done|].
  intros e. apply preserves_bind; [done|]. intros _. apply preserves_throw.
Qed.

Lemma preserves_if {A} (b : bool) (m1 m2 : M A) :
  preserves R m1 → preserves R m2 → preserves R (if b then m1 else m2).
Proof. by destruct b. Qed.

Lemma preserves_load this : preserves R (load this).
Proof. intros σ. unfold load. destruct (vectors σ !! this); reflexivity. Qed.

Lemma preserves_fetch p : preserves R (fetch p).
Proof. intros σ. unfold fetch. destruct (objects σ !! p); reflexivity. Qed.


Lemma preserves_RawMemory_index m i : preserves R (RawMemory_index m i).
Proof.
  apply preserves_bind; [apply preserves_assert|]. intros _. apply preserves_ret.
Qed.
End Closure.

Lemma no_throw_ret {A} (a : A) : no_throw (ret a).
Proof. by intros σ e. Qed.
Lemma no_throw_fault {A} f : no_throw (@fault_ A f).
Proof. by intros σ e. Qed.
Lemma no_throw_assert b : no_throw (assert_ b).
Proof. intros σ e. by destruct b. Qed.

Lemma no_throw_bind {A B} (m : M A) (k : A → M B) :
  no_throw m → (∀ a, no_throw (k a)) → no_throw (bind m k).
Proof.
  intros Hm Hk σ e. specialize (Hm σ). unfold bind.
  destruct (m σ) as [[a|e'|f] σ1]; simpl in *; [apply Hk|by destruct (Hm e')|done].
Qed.

Lemma no_throw_load this : no_throw (load this).
Proof. intros σ e. unfold load. by destruct (vectors σ !! this). Qed.
Lemma no_throw_store this v : no_throw (store this v).
Proof. by intros σ e. Qed.
Lemma no_throw_set_size this n : no_throw (set_size this n).
Proof. apply no_throw_bind; [apply no_throw_load|]. intros. apply no_throw_store. Qed.
Lemma no_throw_set_data this m : no_throw (set_data this m).
Proof. apply no_throw_bind; [apply no_throw_load|]. intros. apply no_throw_store. Qed.
Lemma no_throw_Destroy p : no_throw (Destroy p).
Proof. by intros σ e. Qed.
Lemma no_throw_destroy_n n : ∀ p, no_throw (destroy_n p n).
Proof.
  induction n as [|n IH]; intros p; simpl; [apply no_throw_ret|].
  apply no_throw_bind; [apply no_throw_Destroy|]. intros _. apply IH.
Qed.
Lemma no_throw_RawMemory_dtor m : no_throw (RawMemory_dtor m).
Proof. by intros σ e. Qed.
Lemma no_throw_RawMemory_plus m i : no_throw (RawMemory_plus m i).
Proof. apply no_throw_bind; [apply no_throw_assert|]. intros. apply no_throw_ret. Qed.
Lemma no_throw_RawMemory_index m i : no_throw (RawMemory_index m i).
Proof. apply no_throw_bind; [apply no_throw_assert|]. intros. apply no_throw_ret. Qed.

Lemma no_throw_elim {A} (m : M A) σ e σ' :
  no_throw m → m σ = (Throw e, σ') → False.
Proof. intros Hm H. apply (Hm σ e). by rewrite H. Qed.

Lemma bind_Throw_inv {A B} (m : M A) (k : A → M B) σ e σ' :
  bind m k σ = (Throw e, σ') →
  m σ = (Throw e, σ') ∨ ∃ a σ1, m σ = (Ok a, σ1) ∧ k a σ1 = (Throw e, σ').
Proof.
  unfold bind. destruct (m σ) as [[a|e'|f] σ1]; intros H; simplify_eq; eauto.
Qed.

Global Instance keeps_preorder P : PreOrder (keeps P).
Proof.
  split.
  - intros σ. split_and!; [done..|]. by exists [].
  - intros σ1 σ2 σ3 (Hv1 & Ha1 & Ho1 & evs1 & Ht1) (Hv2 & Ha2 & Ho2 & evs2 & Ht2).
    split_and!; [congruence..| |].
    + intros p Hp. by rewrite Ho2, Ho1.
    + exists (evs2 ++ evs1). by rewrite Ht2, Ht1, (assoc_L (++)).
Qed.

(** ** Element operations, step by step *)

Lemma ForwardConstruct_caller_owned buf a v σ :
  arg_value a = Some v →
  ForwardConstruct buf a σ =
    if negb (init_nothrow a) && throws (ticks σ)
    then (Throw (ElementError (ticks σ)), ticked (init_event (Some buf) a) σ)
    else (Ok tt, set_objects <[buf := v]> (ticked (init_event (Some buf) a) σ)).
Proof.
  destruct a as [w|[p|w]|[p|w]]; simpl; intros [= <-];
    unfold ForwardConstruct, init_from, bind, record, element_op, ret, place, ticked;
    simpl; destruct nothrow_move_constructible, (throws (ticks σ)); reflexivity.
Qed.

Lemma ForwardConstruct_slot_None buf bm s σ :
  objects σ !! s = None →
  ForwardConstruct buf (forward_as bm (AtSlot s)) σ = (Fault (NoObject s), σ).
Proof.
  intros Hs. destruct bm;
    unfold forward_as, ForwardConstruct, init_from, bind, value_of, fetch; by rewrite Hs.
Qed.

Lemma ForwardConstruct_slot buf bm s v σ :
  objects σ !! s = Some v →
  ForwardConstruct buf (forward_as bm (AtSlot s)) σ =
    if negb (bm && nothrow_move_constructible) && throws (ticks σ)
    then (Throw (ElementError (ticks σ)), ticked (transfer bm s buf) σ)
    else (Ok tt,
          set_objects (λ m, <[buf := v]> (if bm then <[s := moved_from v]> m else m))
            (ticked (transfer bm s buf) σ)).
Proof.
  intros Hs. destruct bm;
    unfold forward_as, ForwardConstruct, init_from, bind, value_of, fetch, record, element_op,
      leave_moved, ret, place, ticked; rewrite Hs; simpl;
    destruct nothrow_move_constructible, (throws (ticks σ)); reflexivity.
Qed.

Lemma RawMemory_plus_eq m i σ :
  RawMemory_plus m i σ =
    if bool_decide (i ≤ capacity_ m) then (Ok (buffer_ m, i), σ)
    else (Fault AssertionFailed, σ).
Proof. unfold RawMemory_plus, bind, assert_. by destruct (bool_decide _). Qed.

(** ** What a call leaves alone *)

Section Keeps.
Context (P : ptr → Prop).

Lemma keeps_record e : preserves (keeps P) (record e).
Proof. intros σ. split_and!; [done..|]. by exists [e]. Qed.

Lemma keeps_element_op nt : preserves (keeps P) (element_op nt).
Proof.
  intros σ. unfold element_op.
  destruct (negb nt && throws (ticks σ)); (split_and!; [done..|]); by exists [].
Qed.

Lemma keeps_place p v : P p → preserves (keeps P) (place p v).
Proof.
  intros Hp σ. split_and!; [done..| |by exists []]. intros q Hq; simpl.
  apply lookup_insert_ne. by intros ->.
Qed.

Lemma keeps_Destroy p : P p → preserves (keeps P) (Destroy p).
Proof.
  intros Hp σ. split_and!; [done..| |by eexists [_]]. intros q Hq; simpl.
  apply lookup_delete_ne. by intros ->.
Qed.

Lemma keeps_value_of r : preserves (keeps P) (value_of r).
Proof. destruct r; [apply preserves_fetch, _|apply preserves_ret, _]. Qed.

Lemma keeps_leave_moved r v :
  (∀ p, r = AtSlot p → P p) → preserves (keeps P) (leave_moved r v).
Proof.
  intros Hr. destruct r as [p|w]; simpl; [|apply preserves_ret, _].
  apply keeps_place. by apply Hr.
Qed.

(** Initialising from an argument changes at most the source of a move. *)
Lemma keeps_init_from dst a :
  (∀ p, a = Rvalue (AtSlot p) → P p) → preserves (keeps P) (init_from dst a).
Proof.
  intros Ha. destruct a as [w|r|r]; simpl.
  - apply preserves_bind; [apply _|apply keeps_record|intros _].
    apply preserves_bind; [apply _|apply keeps_element_op|intros _].
    apply preserves_ret, _.
  - apply preserves_bind; [apply _|apply keeps_value_of|intros v].
    apply preserves_bind; [apply _|apply keeps_record|intros _].
    apply preserves_bind; [apply _|apply keeps_element_op|intros _].
    apply preserves_ret, _.
  - apply preserves_bind; [apply _|apply keeps_value_of|intros v].
    apply preserves_bind; [apply _|apply keeps_record|intros _].
    apply preserves_bind; [apply _|apply keeps_element_op|intros _].
    apply preserves_bind; [apply _| |intros _; apply preserves_ret, _].
    apply keeps_leave_moved. intros p ->. by apply Ha.
Qed.

Lemma keeps_ForwardConstruct buf a :
  P buf → (∀ p, a = Rvalue (AtSlot p) → P p) →
  preserves (keeps P) (ForwardConstruct buf a).
Proof.
  intros Hb Ha. unfold ForwardConstruct.
  apply preserves_bind; [apply _|by apply keeps_init_from|intros; by apply keeps_place].
Qed.



Lemma keeps_destroy_n n : ∀ p, (∀ i, i < n → P (p +ₚ i)) → preserves (keeps P) (destroy_n p n).
Proof.
  induction n as [|n IH]; intros p Hp; simpl; [apply preserves_ret, _|].
  apply preserves_bind; [apply _| |intros _].
  - apply keeps_Destroy. specialize (Hp 0). unfold ptr_add in Hp.
    rewrite Nat.add_0_r in Hp. destruct p. apply Hp. lia.
  - apply IH. intros i Hi. specialize (Hp (S i)). unfold ptr_add in *; simpl in *.
    replace (p.2 + 1 + i) with (p.2 + S i) by lia. apply Hp. lia.
Qed.


End Keeps.

Section KeepsBlock.
Context (b : nat).
Let P : ptr → Prop := λ p, p.1 = b.

Lemma keeps_Deallocate : preserves (keeps P) (Deallocate b).
Proof.
  intros σ. split_and!; [done..| |by exists []]. intros q Hq; simpl.
  rewrite map_lookup_filter. destruct (objects σ !! q) as [v|]; [|done]; simpl.
  by rewrite option_guard_True.
Qed.

Lemma keeps_block_destroy_n n p : p.1 = b → preserves (keeps P) (destroy_n p n).
Proof. intros Hp. by apply keeps_destroy_n. Qed.

(** Relocation by copy into block [b]. *)
Lemma keeps_uninitialized_copy first d n :
  d.1 = b → ∀ k, preserves (keeps P) (uninitialized_from false first d k n).
Proof.
  intros Hd. induction n as [|n IH]; intros k; simpl; [apply preserves_ret, _|].
  apply preserves_bind; [apply _| |intros; apply IH].
  apply preserves_try_catch; [apply _| |].
  - by apply keeps_ForwardConstruct.
  - intros e. apply preserves_bind; [apply _| |intros; apply preserves_throw, _].
    by apply keeps_block_destroy_n.
Qed.
End KeepsBlock.


(** ** The growth branch, unfolded *)

Lemma PushBack_growth this value v σ :
  vectors σ !! this = Some v →
  size_ v = capacity_ (data_ v) →
  PushBack this value σ =
    (grow_with this v (grown (size_ v)) (λ new_data, PushBack_fill v new_data value) ;;
     set_size this (S (size_ v))) σ.
Proof.
  intros Hv Hfull. unfold PushBack.
  rewrite (bind_Ok _ _ _ _ _ (load_Some _ _ _ Hv)).
  by destruct (decide (size_ v = capacity_ (data_ v))).
Qed.

Lemma Emplace_growth this pos_t args v σ :
  vectors σ !! this = Some v →
  size_ v = capacity_ (data_ v) →
  Emplace this pos_t args σ =
    (grow_with this v (grown (size_ v)) (λ new_data, Emplace_fill v new_data pos_t args) ;;
     set_size this (S (size_ v)) ;;
     v' <- load this ;;
     RawMemory_plus (data_ v') pos_t) σ.
Proof.
  intros Hv Hfull. unfold Emplace.
  rewrite (bind_Ok _ _ _ _ _ (load_Some _ _ _ Hv)).
  by destruct (decide (size_ v = capacity_ (data_ v))).
Qed.

Lemma Reserve_growth this new_capacity v σ :
  vectors σ !! this = Some v →
  capacity_ (data_ v) < new_capacity →
  Reserve this new_capacity σ = grow_with this v new_capacity (Reserve_fill v) σ.
Proof.
  intros Hv Hlt. unfold Reserve.
  rewrite (bind_Ok _ _ _ _ _ (load_Some _ _ _ Hv)).
  destruct (decide (new_capacity ≤ capacity_ (data_ v))); [lia|done].
Qed.

(** [EmplaceBack] is [PushBack] followed by taking the reference
    [data_[size_ - 1]]. *)
Lemma EmplaceBack_as_PushBack this args σ :
  EmplaceBack this args σ =
    (PushBack this args ;; v <- load this ;; RawMemory_index (data_ v) (size_ v - 1)) σ.
Proof.
  unfold EmplaceBack, PushBack, bind.
  destruct (load this σ) as [[v|?|?] σ1]; [|done..].
  destruct (decide (size_ v = capacity_ (data_ v))).
  - destruct (RawMemory_ctor _ σ1) as [[nd|?|?] σ2]; [|done..].
    destruct (unwinding _ _ σ2) as [[[]|?|?] σ3]; [|done..].
    destruct (set_data _ _ σ3) as [[[]|?|?] σ4]; [|done..].
    destruct (destroy_n _ _ σ4) as [[[]|?|?] σ5]; [|done..].
    destruct (RawMemory_dtor _ σ5) as [[[]|?|?] σ6]; [|done..].
    by destruct (set_size _ _ σ6) as [[[]|?|?] σ7].
  - destruct (RawMemory_plus _ _ σ1) as [[slot|?|?] σ2]; [|done..].
    destruct (try_catch _ _ σ2) as [[[]|?|?] σ3]; [|done..].
    by destruct (set_size _ _ σ3) as [[[]|?|?] σ4].
Qed.

Lemma bind_assoc {A B C} (m : M A) (k : A → M B) (k' : B → M C) σ :
  bind (bind m k) k' σ = bind m (λ a, bind (k a) k') σ.
Proof. unfold bind. by destruct (m σ) as [[?|?|?] ?]. Qed.

Lemma bind_ext {A B} (m m' : M A) (k : A → M B) σ :
  m σ = m' σ → bind m k σ = bind m' k σ.
Proof. unfold bind. by intros ->. Qed.

Lemma bind_ret_tt (m : M unit) σ : bind m (λ _, ret tt) σ = m σ.
Proof. unfold bind, ret. by destruct (m σ) as [[[]|?|?] ?]. Qed.

Lemma RawMemory_plus_Ok m i σ :
  i ≤ capacity_ m → RawMemory_plus m i σ = (Ok (buffer_ m, i), σ).
Proof. intros. by rewrite RawMemory_plus_eq, bool_decide_eq_true_2. Qed.

Lemma RawMemory_plus_Ok_inv m i σ p σ1 :
  RawMemory_plus m i σ = (Ok p, σ1) →
  i ≤ capacity_ m ∧ p = (buffer_ m, i) ∧ σ1 = σ.
Proof.
  rewrite RawMemory_plus_eq. case_bool_decide; intros; by simplify_eq.
Qed.

Lemma bind_cong {A B} (m m' : M A) (k k' : A → M B) σ :
  m σ = m' σ →
  (∀ a σ1, m σ = (Ok a, σ1) → k a σ1 = k' a σ1) →
  bind m k σ = bind m' k' σ.
Proof.
  intros Hm Hk. unfold bind. rewrite <- Hm.
  destruct (m σ) as [[a|?|?] σ1]; [|done..]. by apply Hk.
Qed.

Lemma PushBack_fill_as_Emplace_fill v new_data a σ :
  size_ v ≤ capacity_ (data_ v) →
  PushBack_fill v new_data a σ = Emplace_fill v new_data (size_ v) a σ.
Proof.
  intros Hle. unfold PushBack_fill, Emplace_fill.
  apply bind_cong; [done|]. intros slot σ1 (Hnew & _ & _)%RawMemory_plus_Ok_inv.
  apply bind_cong; [done|]. intros [] σ2 _.
  assert (∀ bm σ3,
    ret tt σ3 = (first <- RawMemory_plus (data_ v) (size_ v) ;;
                 d_first <- RawMemory_plus new_data (size_ v) ;;
                 uninitialized_from bm first (d_first +ₚ 1) 0 (size_ v - size_ v)) σ3)
    as Hrest.
  { intros bm σ3.
    rewrite (bind_Ok _ _ _ _ _ (RawMemory_plus_Ok _ _ _ Hle)).
    rewrite (bind_Ok _ _ _ _ _ (RawMemory_plus_Ok _ _ _ Hnew)).
    by rewrite Nat.sub_diag. }
  destruct relocate_by_move.
  - rewrite <- (bind_ret_tt (uninitialized_move_n _ _ _)).
    apply bind_cong; [done|]. intros [] σ3 _. apply Hrest.
  - rewrite <- (bind_ret_tt (uninitialized_copy_n _ _ _)).
    apply bind_cong; [done|]. intros [] σ3 _. apply Hrest.
Qed.

Lemma grow_with_ext this v capacity fill fill' σ :
  (∀ new_data σ1, fill new_data σ1 = fill' new_data σ1) →
  grow_with this v capacity fill σ = grow_with this v capacity fill' σ.
Proof.
  intros Hfill. unfold grow_with, bind.
  destruct (RawMemory_ctor capacity σ) as [[nd|?|?] σ1]; [|done..].
  unfold unwinding, try_catch. by rewrite Hfill.
Qed.

(** Every call of [call], when it grows, is [grow_with] followed by its tail. *)
Lemma run_growth c this v σ :
  vectors σ !! this = Some v →
  grows c v →
  run c this σ =
    (grow_with this v (new_capacity c v) (fill_of c v) ;; tail_of c this v) σ.
Proof.
  intros Hv Hg. destruct c as [a|a|pos_t a|pos_t a|n]; simpl in *.
  - by apply PushBack_growth.
  - erewrite bind_ext by apply EmplaceBack_as_PushBack.
    rewrite bind_assoc. erewrite bind_ext by by apply PushBack_growth.
    rewrite bind_assoc. apply bind_cong; [done|]. intros [] σ1 _.
    by rewrite ?bind_assoc.
  - erewrite bind_ext by by apply Emplace_growth.
    rewrite bind_assoc. apply bind_cong; [done|]. intros [] σ1 _.
    by rewrite ?bind_assoc.
  - unfold Insert. erewrite bind_ext by by apply Emplace_growth.
    rewrite bind_assoc. apply bind_cong; [done|]. intros [] σ1 _.
    by rewrite ?bind_assoc.
  - rewrite (Reserve_growth _ _ _ _ Hv Hg). by rewrite bind_ret_tt.
Qed.

(** ** Appending without growth: a constructor that throws *)



(** ** The strong guarantee of the growth branch *)

Lemma RawMemory_ctor_eq capacity σ :
  RawMemory_ctor capacity σ =
    if decide (capacity = 0) then (Ok (mkRawMemory 0 capacity), σ)
    else (Ok (mkRawMemory (S (allocated σ)) capacity),
          mkState (vectors σ) (objects σ) (S (allocated σ)) (ticks σ) (trace σ)).
Proof. unfold RawMemory_ctor, bind, Allocate. by destruct (decide (capacity = 0)). Qed.

Lemma grown_nonzero size : grown size ≠ 0.
Proof. unfold grown. destruct (decide (size = 0)); lia. Qed.




(** The relocation of [Emplace], with the policy as a parameter. *)
Lemma Emplace_fill_eq v new_data pos_t a σ :
  Emplace_fill v new_data pos_t a σ =
    (slot <- RawMemory_plus new_data pos_t ;;
     try_catch (ForwardConstruct slot a) (λ e, Destroy slot ;; throw e) ;;
     uninitialized_from relocate_by_move (GetAddress (data_ v)) (GetAddress new_data) 0 pos_t ;;
     first <- RawMemory_plus (data_ v) pos_t ;;
     d_first <- RawMemory_plus new_data pos_t ;;
     uninitialized_from relocate_by_move first (d_first +ₚ 1) 0 (size_ v - pos_t)) σ.
Proof. unfold Emplace_fill. by destruct relocate_by_move. Qed.

Lemma Reserve_fill_eq v new_data :
  Reserve_fill v new_data =
    uninitialized_from relocate_by_move (GetAddress (data_ v)) (GetAddress new_data)
      0 (size_ v).
Proof. unfold Reserve_fill. by destruct relocate_by_move. Qed.








(** ** The relocations of a call *)

Lemma relocates_refl σ : relocates σ σ [].
Proof. by exists []. Qed.

Lemma relocates_trans σ σ1 σ2 l1 l2 :
  relocates σ σ1 l1 → relocates σ1 σ2 l2 → relocates σ σ2 (l1 ++ l2).
Proof.
  intros (evs1 & Ht1 & <-) (evs2 & Ht2 & <-). exists (evs2 ++ evs1). split.
  - by rewrite Ht2, Ht1, (assoc_L (++)).
  - unfold relocations. by rewrite filter_app, rev_app_distr.
Qed.

Lemma logs_same {A} (m : M A) σ :
  trace (m σ).2 = trace σ → logs m σ [].
Proof. intros Ht. exists []. split_and!; [by exists []|done..]. Qed.

Lemma logs_one {A} (m : M A) σ e :
  trace (m σ).2 = e :: trace σ → is_relocation e = false → logs m σ [].
Proof.
  intros Ht He. exists []. split_and!; [|done..]. exists [e]. split; [done|].
  unfold relocations. rewrite filter_cons_False by by rewrite He. done.
Qed.

Lemma logs_bind {A B} (m : M A) (k : A → M B) σ p1 p2 :
  logs m σ p1 →
  (∀ a σ1, m σ = (Ok a, σ1) → logs (k a) σ1 p2) →
  logs (bind m k) σ (p1 ++ p2).
Proof.
  intros (l1 & Hr1 & Hp1 & Hok1) Hk. unfold logs, bind.
  destruct (m σ) as [[a|e|f] σ1] eqn:Hm; simpl in *.
  - destruct (Hk a σ1 eq_refl) as (l2 & Hr2 & Hp2 & Hok2).
    rewrite (Hok1 a eq_refl) in Hr1. exists (p1 ++ l2). split_and!.
    + by eapply relocates_trans.
    + by apply prefix_app.
    + intros b Hb. by rewrite (Hok2 b Hb).
  - exists l1. split_and!; [done|by apply prefix_app_r|done].
  - exists l1. split_and!; [done|by apply prefix_app_r|done].
Qed.

Lemma logs_bind_nil {A B} (m : M A) (k : A → M B) σ p :
  logs m σ [] →
  (∀ a σ1, m σ = (Ok a, σ1) → logs (k a) σ1 p) →
  logs (bind m k) σ p.
Proof. intros Hm Hk. by apply (logs_bind m k σ [] p). Qed.

Lemma logs_bind_then_nil {A B} (m : M A) (k : A → M B) σ p :
  logs m σ p →
  (∀ a σ1, logs (k a) σ1 []) →
  logs (bind m k) σ p.
Proof.
  intros Hm Hk. rewrite <- (app_nil_r p). apply logs_bind; [done|]. intros; apply Hk.
Qed.

(** A handler that records no relocation and does not return normally. *)
Lemma logs_try_catch {A} (m : M A) h σ p :
  logs m σ p →
  (∀ e σ1, logs (h e) σ1 []) →
  (∀ e σ1 a, (h e σ1).1 ≠ Ok a) →
  logs (try_catch m h) σ p.
Proof.
  intros (l & Hr & Hp & Hok) Hh Hnot. unfold logs, try_catch.
  destruct (m σ) as [[a|e|f] σ1]; simpl in *; [by exists l| |by exists l].
  destruct (Hh e σ1) as (l' & Hr' & ->%prefix_nil_inv & _).
  exists l. split_and!; [|done|].
  - rewrite <- (app_nil_r l). by eapply relocates_trans.
  - intros a Ha. by destruct (Hnot e σ1 a).
Qed.

Lemma logs_throw {A} e σ : logs (@throw A e) σ [].
Proof. by apply logs_same. Qed.
Lemma logs_ret {A} (a : A) σ : logs (ret a) σ [].
Proof. by apply logs_same. Qed.
Lemma logs_load this σ : logs (load this) σ [].
Proof. apply logs_same. unfold load. by destruct (vectors σ !! this). Qed.
Lemma logs_store this v σ : logs (store this v) σ [].
Proof. by apply logs_same. Qed.
Lemma logs_RawMemory_plus m i σ : logs (RawMemory_plus m i) σ [].
Proof. apply logs_same. rewrite RawMemory_plus_eq. by case_bool_decide. Qed.
Lemma logs_RawMemory_index m i σ : logs (RawMemory_index m i) σ [].
Proof.
  apply logs_same. unfold RawMemory_index, bind, assert_. by case_bool_decide.
Qed.
Lemma logs_RawMemory_dtor m σ : logs (RawMemory_dtor m) σ [].
Proof. by apply logs_same. Qed.
Lemma logs_Destroy p σ : logs (Destroy p) σ [].
Proof. by eapply logs_one. Qed.

Lemma logs_set_size this n σ : logs (set_size this n) σ [].
Proof. apply logs_bind_nil; [apply logs_load|]. intros; apply logs_store. Qed.
Lemma logs_set_data this m σ : logs (set_data this m) σ [].
Proof. apply logs_bind_nil; [apply logs_load|]. intros; apply logs_store. Qed.

Lemma logs_destroy_n n : ∀ p σ, logs (destroy_n p n) σ [].
Proof.
  induction n as [|n IH]; intros p σ; simpl; [apply logs_ret|].
  apply logs_bind_nil; [apply logs_Destroy|]. intros; apply IH.
Qed.

Lemma logs_retire_old this v new_data σ : logs (retire_old this v new_data) σ [].
Proof.
  unfold retire_old.
  apply logs_bind_nil; [apply logs_set_data|intros _ σ1 _].
  apply logs_bind_nil; [apply logs_destroy_n|intros _ σ2 _].
  apply logs_RawMemory_dtor.
Qed.

Lemma logs_tail_of c this v σ : logs (tail_of c this v) σ [].
Proof.
  destruct c; simpl; try apply logs_ret; try apply logs_set_size;
    (apply logs_bind_nil; [apply logs_set_size|intros _ σ1 _]);
    (apply logs_bind_nil; [|intros; apply logs_ret]);
    (apply logs_bind_nil; [apply logs_load|intros v' σ2 _]);
    first [apply logs_RawMemory_index|apply logs_RawMemory_plus].
Qed.

Lemma is_relocation_transfer bm src dst : is_relocation (transfer bm src dst) = true.
Proof. by destruct bm. Qed.

Lemma is_relocation_init_event dst a :
  caller_owned a → is_relocation (init_event dst a) = false.
Proof. by destruct a as [w|[p|w]|[p|w]]. Qed.

Lemma caller_owned_arg_value a : caller_owned a → ∃ val, arg_value a = Some val.
Proof. destruct a as [w|[p|w]|[p|w]]; simpl; by eauto. Qed.

(** The construction of the new element, with its handler, is no relocation. *)
Lemma logs_construct_new slot a σ :
  caller_owned a →
  logs (try_catch (ForwardConstruct slot a) (λ e, Destroy slot ;; throw e)) σ [].
Proof.
  intros Ha. destruct (caller_owned_arg_value _ Ha) as [val Hval].
  apply logs_try_catch.
  - destruct (negb (init_nothrow a) && throws (ticks σ)) eqn:Hb.
    + eapply logs_one; [|by apply (is_relocation_init_event (Some slot))].
      by rewrite (ForwardConstruct_caller_owned _ _ _ _ Hval), Hb.
    + eapply logs_one; [|by apply (is_relocation_init_event (Some slot))].
      by rewrite (ForwardConstruct_caller_owned _ _ _ _ Hval), Hb.
  - intros e σ1. apply logs_bind_nil; [apply logs_Destroy|]. intros; apply logs_throw.
  - by intros e σ1 u.
Qed.

(** The loop of [std::uninitialized_copy_n] and [std::uninitialized_move_n]
    relocates its [n] sources in order, each by a move or each by a copy. *)
Lemma logs_uninitialized_from bm first d n :
  ∀ k σ, logs (uninitialized_from bm first d k n) σ
           ((λ i, transfer bm (first +ₚ i) (d +ₚ i)) <$> seq k n).
Proof.
  induction n as [|n IH]; intros k σ; simpl; [apply logs_ret|].
  apply (logs_bind _ _ _ [_]); [|intros; apply IH].
  apply logs_try_catch.
  - destruct (objects σ !! (first +ₚ k)) as [w|] eqn:Hs.
    + exists [transfer bm (first +ₚ k) (d +ₚ k)]. split_and!; [|done..].
      exists [transfer bm (first +ₚ k) (d +ₚ k)]. split.
      * rewrite (ForwardConstruct_slot _ _ _ _ _ Hs). by destruct (_ && _).
      * unfold relocations.
        by rewrite filter_cons_True by apply is_relocation_transfer.
    + exists []. rewrite (ForwardConstruct_slot_None _ _ _ _ Hs).
      split_and!; [by exists []|apply prefix_nil|done].
  - intros e σ1. apply logs_bind_nil; [apply logs_destroy_n|]. intros; apply logs_throw.
  - intros e σ1 u. unfold bind.
    by destruct (destroy_n d k σ1) as [[[]|?|?] ?].
Qed.

Lemma logs_ext {A} (m m' : M A) σ p : m σ = m' σ → logs m' σ p → logs m σ p.
Proof. unfold logs. by intros ->. Qed.

Lemma logs_Emplace_fill v new_data pos_t a σ :
  caller_owned a →
  logs (Emplace_fill v new_data pos_t a) σ
    (transfer_plan relocate_by_move (buffer_ (data_ v), 0) (buffer_ new_data, 0) pos_t
     ++ transfer_plan relocate_by_move (buffer_ (data_ v), pos_t)
          (buffer_ new_data, pos_t + 1) (size_ v - pos_t)).
Proof.
  intros Ha. eapply logs_ext; [apply Emplace_fill_eq|].
  apply logs_bind_nil; [apply logs_RawMemory_plus|intros slot σ1 _].
  apply logs_bind_nil; [by apply logs_construct_new|intros _ σ2 _].
  apply logs_bind; [apply logs_uninitialized_from|intros _ σ3 _].
  apply logs_bind_nil; [apply logs_RawMemory_plus|].
  intros first σ4 (_ & -> & _)%RawMemory_plus_Ok_inv.
  apply logs_bind_nil; [apply logs_RawMemory_plus|].
  intros d_first σ5 (_ & -> & _)%RawMemory_plus_Ok_inv.
  apply logs_uninitialized_from.
Qed.

Lemma logs_fill_of c v new_data σ :
  (∀ a, call_arg c = Some a → caller_owned a) →
  (is_append c = true → size_ v ≤ capacity_ (data_ v)) →
  logs (fill_of c v new_data) σ (relocation_plan c v (buffer_ new_data)).
Proof.
  intros Ha Hle.
  assert (∀ a, caller_owned a → size_ v ≤ capacity_ (data_ v) →
    logs (PushBack_fill v new_data a) σ
      (transfer_plan relocate_by_move (buffer_ (data_ v), 0) (buffer_ new_data, 0)
         (size_ v))) as Hpush.
  { intros a Hco Hle'. eapply logs_ext; [by apply PushBack_fill_as_Emplace_fill|].
    pose proof (logs_Emplace_fill v new_data (size_ v) a σ Hco) as H.
    rewrite Nat.sub_diag in H. unfold transfer_plan at 2 in H; simpl in H.
    by rewrite app_nil_r in H. }
  destruct c as [a|a|pos_t a|pos_t a|n]; simpl.
  - apply Hpush; [by apply Ha|by apply Hle].
  - apply Hpush; [by apply Ha|by apply Hle].
  - by apply logs_Emplace_fill, Ha.
  - by apply logs_Emplace_fill, Ha.
  - rewrite Reserve_fill_eq. apply logs_uninitialized_from.
Qed.

Lemma logs_grow_with this v capacity fill σ plan :
  capacity ≠ 0 →
  (∀ σ1, logs (fill (mkRawMemory (S (allocated σ)) capacity)) σ1 plan) →
  logs (grow_with this v capacity fill) σ plan.
Proof.
  intros Hcap Hfill. unfold grow_with.
  apply logs_bind_nil.
  { apply logs_same. rewrite RawMemory_ctor_eq. by destruct (decide (capacity = 0)). }
  intros new_data σ1 Hctor. rewrite RawMemory_ctor_eq in Hctor.
  destruct (decide (capacity = 0)); [done|]. simplify_eq.
  apply logs_bind_then_nil; [|intros; apply logs_retire_old].
  apply logs_try_catch; [apply Hfill| |by intros e σ1 u].
  intros e σ1. apply logs_bind_nil; [apply logs_RawMemory_dtor|]. intros; apply logs_throw.
Qed.



(** ** The non-growth branch of [Emplace]: what its handler does *)


Section LiveRange.
Context (v : Vector).
Let P : ptr → Prop := λ p, p.1 = buffer_ (data_ v) ∧ p.2 ≤ size_ v.


End LiveRange.



(** ** Calls that succeed *)

Section NoThrow.
Hypothesis throws_never : ∀ k, throws k = false.

Lemma destroy_n_Ok n : ∀ p σ, ∃ σ', destroy_n p n σ = (Ok tt, σ').
Proof.
  induction n as [|n IH]; intros p σ; simpl; [by eexists|].
  unfold bind; simpl. apply IH.
Qed.

Lemma ptr_add_inj (p : ptr) i j : p +ₚ i = p +ₚ j → i = j.
Proof. destruct p. unfold ptr_add; simpl. intros [=]. lia. Qed.

(** Without exceptions, the loop relocates all [n] objects: each target
    slot holds what its source held, and no slot other than the targets and
    the sources is changed. *)
Lemma uninitialized_from_Ok bm first d n :
  first.1 ≠ d.1 →
  ∀ k σ,
    (∀ i, k ≤ i < k + n → is_Some (objects σ !! (first +ₚ i))) →
    ∃ σ',
      uninitialized_from bm first d k n σ = (Ok tt, σ') ∧
      vectors σ' = vectors σ ∧ allocated σ' = allocated σ ∧
      (∀ i, k ≤ i < k + n → objects σ' !! (d +ₚ i) = objects σ !! (first +ₚ i)) ∧
      (∀ p, (∀ i, k ≤ i < k + n → p ≠ d +ₚ i ∧ p ≠ first +ₚ i) →
            objects σ' !! p = objects σ !! p).
Proof.
  intros Hblk. induction n as [|n IH]; intros k σ Hlive; simpl.
  { eexists. split_and!; [done..| |done]. intros; lia. }
  destruct (Hlive k) as [w Hw]; [lia|].
  unfold bind at 1, try_catch.
  rewrite (ForwardConstruct_slot _ _ _ _ _ Hw), throws_never, andb_false_r.
  set (σ1 := set_objects _ _).
  assert (∀ p, p ≠ d +ₚ k → p ≠ first +ₚ k → objects σ1 !! p = objects σ !! p) as Hσ1.
  { intros p Hp1 Hp2. simpl. rewrite lookup_insert_ne by done.
    destruct bm; [|done]. by apply lookup_insert_ne. }
  assert (∀ i j, first +ₚ i ≠ d +ₚ j) as Hcross.
  { intros i j Heq. by apply (f_equal fst) in Heq. }
  destruct (IH (S k) σ1) as (σ' & Hrun & Hvec & Hal & Hdst & Hframe).
  { intros i Hi. rewrite Hσ1; [apply Hlive; lia|done|].
    intros ?%ptr_add_inj. lia. }
  exists σ'. split_and!; [done..| |].
  - intros i Hi. destruct (decide (i = k)) as [->|Hne].
    + rewrite Hframe.
      * simpl. by rewrite lookup_insert_eq.
      * intros j Hj. split; [intros ?%ptr_add_inj; lia|]. intros Heq. by eapply Hcross.
    + rewrite Hdst by lia. apply Hσ1; [done|]. intros ?%ptr_add_inj. lia.
  - intros p Hp. rewrite Hframe by (intros; apply Hp; lia).
    apply Hσ1; apply Hp; lia.
Qed.

Lemma grown_gt size : size < grown size.
Proof. unfold grown. destruct (decide (size = 0)); lia. Qed.

Lemma ForwardConstruct_Ok buf a val σ :
  arg_value a = Some val →
  ForwardConstruct buf a σ
    = (Ok tt, set_objects <[buf := val]> (ticked (init_event (Some buf) a) σ)).
Proof.
  intros Ha. by rewrite (ForwardConstruct_caller_owned _ _ _ _ Ha), throws_never,
    andb_false_r.
Qed.

(** Filling the new block in [PushBack]: afterwards slots [0..size_] of
    the new block hold objects. *)
Lemma PushBack_fill_Ok a val v new_data σ :
  arg_value a = Some val →
  size_ v ≤ capacity_ new_data →
  buffer_ (data_ v) ≠ buffer_ new_data →
  (∀ i, i < size_ v → is_Some (objects σ !! (buffer_ (data_ v), i))) →
  ∃ σ',
    PushBack_fill v new_data a σ = (Ok tt, σ') ∧
    vectors σ' = vectors σ ∧ allocated σ' = allocated σ ∧
    ∀ i, i < S (size_ v) → is_Some (objects σ' !! (buffer_ new_data, i)).
Proof.
  intros Ha Hcap Hblk Hlive. unfold PushBack_fill.
  rewrite (bind_Ok _ _ _ _ _ (RawMemory_plus_Ok _ _ _ Hcap)).
  unfold bind at 1, try_catch. rewrite (ForwardConstruct_Ok _ _ _ _ Ha).
  set (σ1 := set_objects _ _).
  destruct (uninitialized_from_Ok relocate_by_move
              (GetAddress (data_ v)) (GetAddress new_data) (size_ v) Hblk 0 σ1)
    as (σ' & Hrun & Hvec & Hal & Hdst & Hframe).
  { intros i Hi. unfold GetAddress, ptr_add; simpl.
    rewrite lookup_insert_ne by (intros [=]; done). apply Hlive. lia. }
  exists σ'. split_and!; [|done..|].
  - unfold uninitialized_move_n, uninitialized_copy_n.
    by destruct relocate_by_move.
  - intros i Hi. destruct (decide (i = size_ v)) as [->|Hne].
    + rewrite Hframe.
      * simpl. by rewrite lookup_insert_eq.
      * intros j Hj. unfold GetAddress, ptr_add; simpl.
        split; intros [=]; [lia|done].
    + specialize (Hdst i). unfold GetAddress, ptr_add in Hdst; simpl in Hdst.
      rewrite Hdst by lia. rewrite lookup_insert_ne by (intros [=]; done).
      apply Hlive. lia.
Qed.

(** [PushBack] of a caller-owned value succeeds and keeps the array well
    formed, with one element more and, if it was full, the grown capacity. *)
Lemma PushBack_Ok a val this v σ :
  arg_value a = Some val →
  well_formed σ this v →
  ∃ σ',
    PushBack this a σ = (Ok tt, σ') ∧
    well_formed σ' this
      (mkVector (if decide (size_ v = capacity_ (data_ v))
                 then mkRawMemory (S (allocated σ)) (grown (size_ v))
                 else data_ v)
                (S (size_ v))).
Proof.
  intros Ha (Hv & Hle & Hold & Hlive).
  destruct (decide (size_ v = capacity_ (data_ v))) as [Hfull|Hroom].
  - rewrite (PushBack_growth _ _ _ _ Hv Hfull). unfold grow_with.
    rewrite !bind_assoc.
    erewrite bind_Ok; [|rewrite RawMemory_ctor_eq;
                        destruct (decide (grown (size_ v) = 0)) as [H0|_];
                        [by destruct (grown_nonzero _ H0)|done]].
    set (new_data := mkRawMemory _ _). set (σ1 := mkState _ _ _ _ _).
    destruct (PushBack_fill_Ok a val v new_data σ1 Ha) as (σ2 & Hfill & Hvec & Hal & Hnew).
    { simpl. pose proof (grown_gt (size_ v)). lia. }
    { simpl. lia. }
    { done. }
    rewrite bind_assoc.
    erewrite bind_Ok; [|unfold unwinding, try_catch; by rewrite Hfill].
    unfold retire_old. rewrite !bind_assoc.
    erewrite bind_Ok; [|apply set_data_Some; by rewrite Hvec].
    set (σ3 := set_vectors _ σ2).
    destruct (destroy_n_Ok (size_ v) (GetAddress (data_ v)) σ3) as (σ4 & Hdestroy).
    pose proof (keeps_block_destroy_n (buffer_ (data_ v)) (size_ v)
                  (GetAddress (data_ v)) eq_refl σ3) as (Hvec4 & Hal4 & Hobj4 & _).
    rewrite Hdestroy in Hvec4, Hal4, Hobj4; simpl in Hvec4, Hal4, Hobj4.
    rewrite bind_assoc. rewrite (bind_Ok _ _ _ _ _ Hdestroy).
    erewrite bind_Ok by reflexivity.
    erewrite set_size_Some; [|simpl; rewrite Hvec4; apply lookup_insert_eq].
    eexists. split; [done|]. unfold well_formed; simpl. rewrite Hvec4, Hal4, Hal; simpl.
    rewrite insert_insert_eq. split_and!.
    + apply lookup_insert_eq.
    + pose proof (grown_gt (size_ v)). lia.
    + lia.
    + intros i Hi. simpl. rewrite map_lookup_filter.
      assert (is_Some (objects σ4 !! (S (allocated σ), i))) as [w Hw].
      { rewrite Hobj4 by (simpl; lia). by apply Hnew. }
      rewrite Hw; simpl. rewrite option_guard_True by (simpl; lia). by eexists.
  - unfold PushBack.
    rewrite (bind_Ok _ _ _ _ _ (load_Some _ _ _ Hv)).
    destruct (decide (size_ v = capacity_ (data_ v))); [done|].
    rewrite bind_assoc.
    rewrite (bind_Ok _ _ _ _ _ (RawMemory_plus_Ok _ _ _ Hle)).
    erewrite bind_Ok; [|unfold try_catch; by rewrite (ForwardConstruct_Ok _ _ _ _ Ha)].
    erewrite set_size_Some by done.
    eexists. split; [done|]. unfold well_formed; simpl. split_and!.
    + apply lookup_insert_eq.
    + lia.
    + done.
    + intros i Hi. destruct (decide (i = size_ v)) as [->|Hne].
      * rewrite lookup_insert_eq. by eexists.
      * rewrite lookup_insert_ne by (intros [=]; done). apply Hlive. lia.
Qed.
Lemma run_append_Ok c a val this v σ :
  is_append c = true →
  call_arg c = Some a →
  arg_value a = Some val →
  well_formed σ this v →
  ∃ σ',
    run c this σ = (Ok tt, σ') ∧
    well_formed σ' this
      (mkVector (if decide (size_ v = capacity_ (data_ v))
                 then mkRawMemory (S (allocated σ)) (grown (size_ v))
                 else data_ v)
                (S (size_ v))).
Proof.
  intros Hc Hca Ha Hwf.
  destruct (PushBack_Ok a val this v σ Ha Hwf) as (σ' & Hrun & Hwf').
  exists σ'. split; [|done].
  destruct c as [a'|a'|?|?|?]; simplify_eq/=; [done|].
  erewrite bind_Ok; [done|]. rewrite EmplaceBack_as_PushBack.
  rewrite (bind_Ok _ _ _ _ _ Hrun).
  destruct Hwf' as (Hv' & Hle' & _).
  rewrite (bind_Ok _ _ _ _ _ (load_Some _ _ _ Hv')).
  unfold RawMemory_index, bind, assert_. simpl in *.
  rewrite bool_decide_eq_true_2 by lia. done.
Qed.

Lemma run_all_appends cs :
  Forall (λ c, is_append c = true ∧ ∃ a, call_arg c = Some a ∧ caller_owned a) cs →
  ∀ this v σ,
    well_formed σ this v →
    capacity_ (data_ v) = capacity_after (size_ v) →
    ∃ σ' v',
      run_all cs this σ = (Ok tt, σ') ∧ well_formed σ' this v' ∧
      size_ v' = size_ v + length cs ∧
      capacity_ (data_ v') = capacity_after (size_ v + length cs).
Proof.
  induction 1 as [|c cs (Hc & a & Hca & Hco) _ IH]; intros this v σ Hwf Hcap; simpl.
  { exists σ, v. by rewrite !Nat.add_0_r. }
  destruct (caller_owned_arg_value _ Hco) as [val Ha].
  destruct (run_append_Ok c a val this v σ Hc Hca Ha Hwf) as (σ1 & Hrun & Hwf1).
  rewrite (bind_Ok _ _ _ _ _ Hrun).
  edestruct (IH this _ σ1 Hwf1) as (σ' & v' & Hall & Hwf' & Hsize & Hcap').
  { simpl. destruct (decide (size_ v = capacity_ (data_ v))) as [Heq|Hne]; simpl.
    - rewrite <- Hcap, <- Heq. rewrite decide_True by done. done.
    - rewrite <- Hcap. by rewrite decide_False by done. }
  exists σ', v'. simpl in *. split_and!; [done..| |].
  - lia.
  - by replace (size_ v + S (length cs)) with (S (size_ v) + length cs) by lia.
Qed.
(** *** Shifting a range by one slot *)

Lemma elem_move_assign_slot dst src u w σ :
  objects σ !! dst = Some u →
  objects σ !! src = Some w →
  elem_move_assign dst (AtSlot src) σ
    = (Ok tt, set_objects (λ m, <[dst := w]> (<[src := moved_from w]> m))
                (ticked (EvMoveAssign (Some src) (Some dst)) σ)).
Proof.
  intros Hd Hs. unfold elem_move_assign.
  erewrite bind_Ok by (unfold fetch; by rewrite Hd).
  erewrite bind_Ok by (unfold value_of, fetch; by rewrite Hs).
  erewrite bind_Ok by reflexivity.
  erewrite bind_Ok by (unfold element_op; simpl; by rewrite throws_never).
  erewrite bind_Ok by reflexivity.
  reflexivity.
Qed.


(** [std::move(first + 1, first + 1 + n, first)] inside block [b]: the objects
    of slots [j+1 .. j+n] move one slot down. *)
Lemma move_range_down b n :
  ∀ j σ,
    (∀ i, j ≤ i ≤ j + n → is_Some (objects σ !! (b, i))) →
    ∃ σ',
      move_range (b, j + 1) (b, j) n σ = (Ok tt, σ') ∧
      vectors σ' = vectors σ ∧ allocated σ' = allocated σ ∧
      (∀ i, j ≤ i < j + n → objects σ' !! (b, i) = objects σ !! (b, i + 1)) ∧
      is_Some (objects σ' !! (b, j + n)) ∧
      (∀ p, p.1 ≠ b ∨ p.2 < j ∨ j + n < p.2 → objects σ' !! p = objects σ !! p).
Proof.
  induction n as [|n IH]; intros j σ Hlive; simpl.
  { eexists. split_and!; [done..|intros; lia| |done].
    rewrite Nat.add_0_r. apply Hlive. lia. }
  destruct (Hlive j) as [u Hu]; [lia|].
  destruct (Hlive (j + 1)) as [w Hw]; [lia|].
  rewrite (bind_Ok _ _ _ _ _ (elem_move_assign_slot _ _ _ _ _ Hu Hw)).
  set (σ1 := set_objects _ _).
  assert (∀ i, i ≠ j → i ≠ j + 1 → objects σ1 !! (b, i) = objects σ !! (b, i)) as Hσ1.
  { intros i H1 H2. simpl. by rewrite !lookup_insert_ne by (intros [=]; lia). }
  unfold ptr_add; simpl.
  destruct (IH (j + 1) σ1) as (σ' & Hrun & Hvec & Hal & Hshift & Hlast & Hframe).
  { intros i Hi. destruct (decide (i = j + 1)) as [->|Hne].
    - simpl. rewrite lookup_insert_ne by (intros [=]; lia).
      rewrite lookup_insert_eq. by eexists.
    - rewrite Hσ1 by lia. apply Hlive. lia. }
  exists σ'. split_and!; [done..| | |].
  - intros i Hi. destruct (decide (i = j)) as [->|Hne].
    + rewrite Hframe by (simpl; lia). simpl. by rewrite lookup_insert_eq.
    + rewrite Hshift by lia. apply Hσ1; lia.
  - by replace (j + S n) with (j + 1 + n) by lia.
  - intros [pb pi] Hp. simpl in Hp. rewrite Hframe by (simpl; lia). simpl.
    rewrite !lookup_insert_ne; [done|intros [=]; lia..].
Qed.

(** *** [Emplace] and [Erase] on a well-formed array *)


Lemma RawMemory_index_Ok m i σ :
  i < capacity_ m → RawMemory_index m i σ = (Ok (buffer_ m, i), σ).
Proof.
  intros Hi. unfold RawMemory_index, bind, assert_.
  by rewrite bool_decide_eq_true_2.
Qed.






(** [Erase] at a position inside the array succeeds: the elements before
    [pos_t] stay and the ones after it move one slot down. *)
Lemma Erase_Ok this pos_t v σ :
  well_formed σ this v →
  pos_t < size_ v →
  ∃ σ' p,
    Erase this pos_t σ = (Ok p, σ') ∧
    well_formed σ' this (mkVector (data_ v) (size_ v - 1)) ∧
    (∀ i, i < pos_t →
          objects σ' !! (buffer_ (data_ v), i) = objects σ !! (buffer_ (data_ v), i)) ∧
    (∀ i, pos_t ≤ i < size_ v - 1 →
          objects σ' !! (buffer_ (data_ v), i) = objects σ !! (buffer_ (data_ v), i + 1)).
Proof.
  intros (Hv & Hle & Hold & Hlive) Hpos. unfold Erase.
  set (b := buffer_ (data_ v)) in *.
  rewrite (bind_Ok _ _ _ _ _ (load_Some _ _ _ Hv)).
  erewrite bind_Ok;
    [|unfold begin_; rewrite (bind_Ok _ _ _ _ _ (load_Some _ _ _ Hv));
      apply RawMemory_plus_Ok; lia].
  erewrite bind_Ok;
    [|unfold end_; rewrite (bind_Ok _ _ _ _ _ (load_Some _ _ _ Hv));
      by apply RawMemory_plus_Ok].
  erewrite bind_Ok; [|unfold assert_; by rewrite bool_decide_eq_true_2].
  rewrite (bind_Ok _ _ _ _ _ (RawMemory_plus_Ok (data_ v) pos_t _ ltac:(lia))).
  rewrite (bind_Ok _ _ _ _ _ (RawMemory_plus_Ok (data_ v) (size_ v) _ ltac:(lia))).
  rewrite (bind_Ok _ _ _ _ _ (RawMemory_plus_Ok (data_ v) pos_t _ ltac:(lia))).
  fold b. unfold std_move, ptr_add; simpl.
  destruct (move_range_down b (size_ v - (pos_t + 1)) pos_t σ)
    as (σ1 & Hrun & Hvec1 & Hal1 & Hshift & _ & Hframe).
  { intros i Hi. apply Hlive. lia. }
  rewrite (bind_Ok _ _ _ _ _ Hrun).
  rewrite (bind_Ok _ _ _ _ _ (RawMemory_plus_Ok (data_ v) (size_ v) _ ltac:(lia))).
  fold b. unfold ptr_pred; simpl.
  destruct (size_ v) as [|n] eqn:Hsize; [lia|]. simpl.
  erewrite bind_Ok by reflexivity.
  erewrite bind_Ok by reflexivity.
  erewrite bind_Ok; [|apply set_size_Some; simpl; by rewrite Hvec1].
  rewrite RawMemory_plus_Ok by lia.
  eexists _, _. split; [done|]. rewrite !Nat.sub_0_r. simpl.
  replace (S n - (pos_t + 1)) with (n - pos_t) in * by lia.
  assert (∀ i, i < n →
    delete (b, n) (objects σ1) !! (b, i) =
      if decide (i < pos_t) then objects σ !! (b, i) else objects σ !! (b, i + 1))
    as Hvals.
  { intros i Hi. rewrite lookup_delete_ne by (intros [=]; lia).
    destruct (decide (i < pos_t)).
    - apply Hframe. simpl. lia.
    - apply Hshift. lia. }
  split_and!.
  - split_and!; simpl; [by rewrite Hvec1, lookup_insert_eq|lia|by rewrite Hal1|].
    intros i Hi. rewrite Hvals by done. destruct (decide (i < pos_t)); apply Hlive; lia.
  - intros i Hi. rewrite Hvals by lia. by rewrite decide_True by done.
  - intros i Hi. rewrite Hvals by lia. by rewrite decide_False by lia.
Qed.

(** *** [Reserve] and [Resize] on a well-formed array *)



End NoThrow.

Lemma capacity_after_mono n m : n ≤ m → capacity_after n ≤ capacity_after m.
Proof.
  induction 1 as [|m _ IH]; [done|]. etrans; [exact IH|]. simpl.
  destruct (decide (m = capacity_after m)); [|done].
  destruct (decide (capacity_after m = 0)); lia.
Qed.

Lemma capacity_after_power n :
  0 < n → ∃ j, capacity_after n = 2 ^ j ∧ n ≤ 2 ^ j < 2 * n.
Proof.
  induction n as [|n IH]; [lia|]. intros _.
  destruct n as [|n].
  { exists 0. simpl. lia. }
  destruct IH as (j & Hj & Hlo & Hhi); [lia|].
  assert (2 ^ j ≠ 0) by (apply Nat.pow_nonzero; lia).
  assert (capacity_after (S (S n)) =
          if decide (S n = 2 ^ j) then 2 ^ j * 2 else 2 ^ j) as ->.
  { rewrite <- Hj. change (capacity_after (S (S n))) with
      (if decide (S n = capacity_after (S n))
       then (if decide (capacity_after (S n) = 0) then 1 else capacity_after (S n) * 2)
       else capacity_after (S n)).
    destruct (decide (S n = capacity_after (S n))); [|done].
    rewrite decide_False; [done|by rewrite Hj]. }
  destruct (decide (S n = 2 ^ j)) as [Heq|Hne].
  - exists (S j). rewrite Nat.pow_succ_r'. lia.
  - exists j. lia.
Qed.

(** ** Swap, move construction and move assignment *)

(** [Swap] exchanges the two objects and touches nothing else: no element is
    constructed, assigned or destroyed, no storage is allocated. *)
Lemma Swap_exchanges this other v o σ :
  vectors σ !! this = Some v →
  vectors σ !! other = Some o →
  Swap this other σ = (Ok tt, set_vectors (λ m, <[other := v]> (<[this := o]> m)) σ).
Proof.
  intros Hv Ho. unfold Swap.
  rewrite (bind_Ok _ _ _ _ _ (load_Some _ _ _ Hv)).
  rewrite (bind_Ok _ _ _ _ _ (load_Some _ _ _ Ho)).
  rewrite (bind_Ok _ _ _ _ _ (set_data_Some _ _ _ _ Hv)).
  destruct σ as [vs os al tk tr]; simpl in *.
  destruct (decide (this = other)) as [->|Hne].
  - assert (v = o) as -> by congruence.
    cbv [bind set_data set_size load store set_vectors]; simpl.
    repeat (rewrite lookup_insert_eq; simpl).
    do 2 f_equal. destruct o as [d n]; simpl. by rewrite !insert_insert_eq.
  - cbv [bind set_data set_size load store set_vectors]; simpl.
    repeat (rewrite ?lookup_insert_eq, ?(lookup_insert_ne _ this other), ?(lookup_insert_ne _ other this), ?Ho, ?Hv by done; simpl).
    do 2 f_equal. destruct o as [d n], v as [d' n']; simpl.
    apply map_eq; intros a.
    destruct (decide (a = other)), (decide (a = this)); by simplify_map_eq.
Qed.

(** C5, as amended.  Move assignment and move construction cannot fail and do
    no element-level work: the state after the call differs from the state
    before only in the two [Vector] objects.  Move assignment exchanges block
    and size, so the destination holds what the source held and the source
    holds what the destination held; move construction gives the new object
    the source's block and size and leaves the source with the default
    members (null block, capacity 0, size 0). *)
Theorem move_exchanges_block_and_size σ this rhs v r :
  vectors σ !! this = Some v →
  vectors σ !! rhs = Some r →
  move_assign this rhs σ
    = (Ok tt, set_vectors (λ m, <[rhs := v]> (<[this := r]> m)) σ)
  ∧ ∀ fresh, fresh ≠ rhs →
      Vector_move_ctor fresh rhs σ
        = (Ok tt, set_vectors (λ m, <[rhs := Vector_default]> (<[fresh := r]> m)) σ).
Proof.
  intros Hv Hr. split.
  - by apply Swap_exchanges.
  - intros fresh Hne. unfold Vector_move_ctor.
    erewrite bind_Ok by reflexivity.
    erewrite Swap_exchanges.
    + destruct σ; unfold set_vectors; simpl. by rewrite insert_insert_eq.
    + destruct σ; apply lookup_insert_eq.
    + destruct σ; simpl in *. by rewrite lookup_insert_ne.
Qed.

(** ** Copy assignment to itself *)

(** C10.  [v = v] takes the branch [this == &rhs]: the call returns at once
    and the state, with its trace of element operations, is the one before the
    call. *)
Theorem self_copy_assign_is_noop σ this :
  copy_assign this this σ = (Ok tt, σ).
Proof. unfold copy_assign. by destruct (decide (this ≠ this)). Qed.

(** C7.  Starting from an empty array, [n] appends ([PushBack] or
    [EmplaceBack], none of which throws) all succeed; after the first [k] of
    them the size is [k] and the capacity is the one the doubling rule gives
    ([new = old == 0 ? 1 : old * 2] whenever the array is full), which for
    [k > 0] is the power of two 1, 2, 4, 8, ... that first reaches [k], and
    which never decreases. *)
Theorem appends_follow_doubling cs this σ :
  (∀ k, throws k = false) →
  vectors σ !! this = Some Vector_default →
  Forall (λ c, is_append c = true ∧ ∃ a, call_arg c = Some a ∧ caller_owned a) cs →
  (∀ k, k ≤ length cs →
     ∃ σ' v',
       run_all (take k cs) this σ = (Ok tt, σ') ∧
       vectors σ' !! this = Some v' ∧
       size_ v' = k ∧
       capacity_ (data_ v') = capacity_after k) ∧
  (∀ k, 0 < k → ∃ j, capacity_after k = 2 ^ j ∧ k ≤ 2 ^ j < 2 * k) ∧
  (∀ k k', k ≤ k' → capacity_after k ≤ capacity_after k').
Proof.
  intros Hnever Hempty Hcs. split_and!.
  - intros k Hk.
    destruct (run_all_appends Hnever (take k cs) (Forall_take _ _ _ Hcs)
                this Vector_default σ) as (σ' & v' & Hrun & Hwf & Hsize & Hcap).
    { split_and!; simpl; [done|lia..]. }
    { done. }
    rewrite length_take in Hsize, Hcap. simpl in Hsize, Hcap.
    rewrite Nat.min_l in Hsize, Hcap by done.
    exists σ', v'. split_and!; [done|apply Hwf|done..].
  - apply capacity_after_power.
  - apply capacity_after_mono.
Qed.

(** * Further properties of the two classes *)

(** ** Arrays as sequences *)

Lemma slots_lookup σ b lo n i :
  i < n → slots σ b lo n !! i = Some (objects σ !! (b, lo + i)).
Proof.
  intros Hi. unfold slots. by rewrite list_lookup_fmap, lookup_seq_lt by done.
Qed.

Lemma length_slots σ b lo n : length (slots σ b lo n) = n.
Proof. unfold slots. by rewrite length_fmap, length_seq. Qed.

Lemma holds_length σ this v l : holds σ this v l → length l = size_ v.
Proof.
  intros (_ & _ & _ & Hl). apply (f_equal length) in Hl.
  by rewrite length_slots, length_fmap in Hl.
Qed.

Lemma holds_lookup σ this v l i :
  holds σ this v l → i < size_ v → objects σ !! (buffer_ (data_ v), i) = l !! i.
Proof.
  intros (_ & _ & _ & Hl) Hi. apply (f_equal (λ k, k !! i)) in Hl.
  rewrite slots_lookup, list_lookup_fmap in Hl by done. simpl in Hl.
  destruct (l !! i); by simplify_eq/=.
Qed.

Lemma holds_intro σ this v l :
  vectors σ !! this = Some v →
  size_ v ≤ capacity_ (data_ v) →
  buffer_ (data_ v) ≤ allocated σ →
  length l = size_ v →
  (∀ i, i < size_ v → objects σ !! (buffer_ (data_ v), i) = l !! i) →
  holds σ this v l.
Proof.
  intros Hv Hle Hold Hlen Hl. split_and!; [done..|].
  apply list_eq. intros i. destruct (decide (i < size_ v)) as [Hi|Hi].
  - rewrite slots_lookup, list_lookup_fmap by done. simpl. rewrite (Hl i Hi).
    destruct (l !! i) eqn:Hli; [done|]. apply lookup_ge_None in Hli. lia.
  - rewrite !(proj2 (lookup_ge_None _ _)); [done| |].
    + rewrite length_fmap. lia.
    + rewrite length_slots. lia.
Qed.

Lemma holds_well_formed σ this v l : holds σ this v l → well_formed σ this v.
Proof.
  intros H. pose proof H as (Hv & Hle & Hold & _). split_and!; [done..|].
  intros i Hi. rewrite (holds_lookup _ _ _ _ _ H Hi).
  apply lookup_lt_is_Some. by rewrite (holds_length _ _ _ _ H).
Qed.

(** ** Destroying a range *)

(** [std::destroy_n] returns, changes nothing but the slots of its range,
    which hold no object afterwards, performs no element operation that could
    throw, and records one destructor call per slot, in index order. *)
Lemma destroy_n_run b n :
  ∀ lo σ,
    ∃ σ',
      destroy_n (b, lo) n σ = (Ok tt, σ') ∧
      vectors σ' = vectors σ ∧ allocated σ' = allocated σ ∧ ticks σ' = ticks σ ∧
      (∀ i, lo ≤ i < lo + n → objects σ' !! (b, i) = None) ∧
      (∀ q, q.1 ≠ b ∨ q.2 < lo ∨ lo + n ≤ q.2 → objects σ' !! q = objects σ !! q) ∧
      trace σ' =
        rev ((λ i, EvDestroy (Some (b, i)) (bool_decide (is_Some (objects σ !! (b, i)))))
               <$> seq lo n) ++ trace σ.
Proof.
  induction n as [|n IH]; intros lo σ; simpl.
  { eexists. split_and!; [done..|intros; lia|done|done]. }
  unfold bind at 1, Destroy at 1. unfold ptr_add; simpl.
  set (σ1 := set_trace _ _).
  destruct (IH (lo + 1) σ1) as (σ' & Hrun & Hvec & Hal & Htk & Hgone & Hframe & Htr).
  exists σ'. split_and!; [done..| | |].
  - intros i Hi. destruct (decide (i = lo)) as [->|Hne].
    + rewrite Hframe by (simpl; lia). simpl. apply lookup_delete_eq.
    + apply Hgone. lia.
  - intros [qb qi] Hq. simpl in Hq. rewrite Hframe by (simpl; lia). simpl.
    apply lookup_delete_ne. intros [=]. lia.
  - rewrite Htr. simpl. rewrite <- (assoc_L (++)). simpl. f_equal.
    + f_equal. rewrite Nat.add_1_r. apply list_fmap_ext. intros k i Hk.
      apply lookup_seq in Hk as [-> _]. simpl.
      by rewrite lookup_delete_ne by (intros [=]; lia).
Qed.

(** On a range of live objects the destructor calls are those of [destroys]. *)
Lemma destroys_live σ b lo n :
  (∀ i, lo ≤ i < lo + n → is_Some (objects σ !! (b, i))) →
  (λ i, EvDestroy (Some (b, i)) (bool_decide (is_Some (objects σ !! (b, i))))) <$> seq lo n
    = destroys b lo n.
Proof.
  intros Hlive. unfold destroys. apply list_fmap_ext. intros k i Hk.
  apply lookup_seq in Hk as [-> Hk]. simpl.
  by rewrite bool_decide_eq_true_2 by (apply Hlive; lia).
Qed.

(** ** Removing from the end *)

Lemma PopBack_run this v l x σ :
  holds σ this v (l ++ [x]) →
  ∃ σ',
    PopBack this σ = (Ok tt, σ') ∧
    holds σ' this (mkVector (data_ v) (length l)) l ∧
    objects σ' = delete (buffer_ (data_ v), length l) (objects σ) ∧
    trace σ' = EvDestroy (Some (buffer_ (data_ v), length l)) true :: trace σ ∧
    ticks σ' = ticks σ ∧ allocated σ' = allocated σ.
Proof.
  intros H. pose proof H as (Hv & Hle & Hold & _).
  pose proof (holds_length _ _ _ _ H) as Hlen. rewrite length_app in Hlen. simpl in Hlen.
  assert (size_ v = S (length l)) as Hsize by lia.
  assert (objects σ !! (buffer_ (data_ v), length l) = Some x) as Hlast.
  { rewrite (holds_lookup _ _ _ _ _ H) by lia. by rewrite lookup_app_r, Nat.sub_diag. }
  unfold PopBack.
  rewrite (bind_Ok _ _ _ _ _ (load_Some _ _ _ Hv)).
  rewrite (bind_Ok _ _ _ _ _ (RawMemory_plus_Ok _ _ _ Hle)).
  rewrite Hsize. unfold ptr_pred; simpl.
  erewrite bind_Ok by reflexivity.
  erewrite bind_Ok by reflexivity.
  erewrite set_size_Some by done.
  eexists. split; [done|]. simpl. rewrite Hlast, Nat.sub_0_r.
  split_and!; [|done| |done..].
  - apply holds_intro; simpl; [apply lookup_insert_eq|lia|done|done|].
    intros i Hi. rewrite lookup_delete_ne by (intros [=]; lia).
    rewrite (holds_lookup _ _ _ _ _ H) by lia. by rewrite lookup_app_l.
  - by rewrite bool_decide_eq_true_2.
Qed.

(** ** The bounds of element access *)


(** ** Shrinking *)

Lemma Resize_shrink_run this v l new_size σ :
  holds σ this v l →
  new_size ≤ size_ v →
  ∃ σ',
    Resize this new_size σ = (Ok tt, σ') ∧
    holds σ' this (mkVector (data_ v) new_size) (take new_size l) ∧
    (∀ i, new_size ≤ i < size_ v → objects σ' !! (buffer_ (data_ v), i) = None) ∧
    (∀ q, q.1 ≠ buffer_ (data_ v) ∨ q.2 < new_size ∨ size_ v ≤ q.2 →
          objects σ' !! q = objects σ !! q) ∧
    trace σ' = rev (destroys (buffer_ (data_ v)) new_size (size_ v - new_size)) ++ trace σ ∧
    ticks σ' = ticks σ ∧ allocated σ' = allocated σ.
Proof.
  intros H Hn. pose proof H as (Hv & Hle & Hold & _).
  pose proof (holds_well_formed _ _ _ _ H) as (_ & _ & _ & Hlive).
  set (b := buffer_ (data_ v)) in *.
  destruct (destroy_n_run b (size_ v - new_size) new_size σ)
    as (σ1 & Hrun & Hvec & Hal & Htk & Hgone & Hframe & Htr).
  rewrite destroys_live in Htr by (intros i Hi; apply Hlive; lia).
  unfold Resize.
  rewrite (bind_Ok _ _ _ _ _ (load_Some _ _ _ Hv)).
  rewrite decide_True by done.
  rewrite (bind_Ok _ _ _ _ _ (RawMemory_plus_Ok (data_ v) new_size _ ltac:(lia))).
  fold b. rewrite (bind_Ok _ _ _ _ _ Hrun).
  erewrite set_size_Some by (by rewrite Hvec).
  eexists. split; [done|]. simpl. split_and!; [| | |done..].
  - apply holds_intro; simpl; [apply lookup_insert_eq|lia|by rewrite Hal| |].
    + rewrite length_take, (holds_length _ _ _ _ H). lia.
    + intros i Hi. fold b. rewrite Hframe by (simpl; lia).
      rewrite (holds_lookup _ _ _ _ _ H) by lia. by rewrite lookup_take_lt.
  - intros i Hi. apply Hgone. lia.
  - intros q Hq. apply Hframe. lia.
Qed.

(** ** The destructor *)

Lemma Vector_dtor_run this v l σ :
  holds σ this v l →
  ∃ σ',
    Vector_dtor this σ = (Ok tt, σ') ∧
    vectors σ' = delete this (vectors σ) ∧
    (∀ q, objects σ' !! q
          = if decide (q.1 = buffer_ (data_ v)) then None else objects σ !! q) ∧
    trace σ' = rev (destroys (buffer_ (data_ v)) 0 (length l)) ++ trace σ ∧
    ticks σ' = ticks σ ∧ allocated σ' = allocated σ.
Proof.
  intros H. pose proof H as (Hv & Hle & Hold & _).
  pose proof (holds_well_formed _ _ _ _ H) as (_ & _ & _ & Hlive).
  rewrite (holds_length _ _ _ _ H).
  set (b := buffer_ (data_ v)) in *.
  destruct (destroy_n_run b (size_ v) 0 σ)
    as (σ1 & Hrun & Hvec & Hal & Htk & Hgone & Hframe & Htr).
  rewrite destroys_live in Htr by (intros i Hi; apply Hlive; lia).
  unfold Vector_dtor.
  rewrite (bind_Ok _ _ _ _ _ (load_Some _ _ _ Hv)).
  unfold GetAddress. fold b. rewrite (bind_Ok _ _ _ _ _ Hrun).
  erewrite bind_Ok by reflexivity.
  eexists. split; [done|]. simpl. rewrite Hvec. split_and!; [done| |done..].
  intros q. fold b. rewrite map_lookup_filter.
  destruct (decide (q.1 = b)) as [Heq|Hne].
  - destruct (objects σ1 !! q); [|done]. simpl. by rewrite option_guard_False by (simpl; auto).
  - rewrite Hframe by auto. destruct (objects σ !! q); [|done]. simpl.
    by rewrite option_guard_True.
Qed.

(** ** Swap *)

(** X8.  [Swap] exchanges what the two arrays hold, block, capacity and size
    together, without any element operation and without touching an object;
    a second [Swap] of the same two arrays gives back the state before the
    first. *)
Theorem Swap_exchanges_contents this other v o lv lo σ :
  holds σ this v lv →
  holds σ other o lo →
  ∃ σ',
    Swap this other σ = (Ok tt, σ') ∧
    holds σ' this o lo ∧ holds σ' other v lv ∧
    objects σ' = objects σ ∧ trace σ' = trace σ ∧
    ticks σ' = ticks σ ∧ allocated σ' = allocated σ ∧
    Swap this other σ' = (Ok tt, σ).
Proof.
  intros Hthis Hother.
  pose proof Hthis as (Hv & Hvle & Hvold & Hvl).
  pose proof Hother as (Ho & Hole & Hoold & Hol).
  rewrite (Swap_exchanges _ _ _ _ _ Hv Ho).
  eexists. split; [done|].
  assert (vectors (set_vectors (λ m, <[other := v]> (<[this := o]> m)) σ) !! this = Some o)
    as Hv'.
  { simpl. destruct (decide (this = other)) as [->|Hne].
    - rewrite lookup_insert_eq. congruence.
    - by rewrite lookup_insert_ne, lookup_insert_eq. }
  assert (vectors (set_vectors (λ m, <[other := v]> (<[this := o]> m)) σ) !! other = Some v)
    as Ho' by (simpl; apply lookup_insert_eq).
  split_and!; [done|done|done..|].
  rewrite (Swap_exchanges _ _ _ _ _ Hv' Ho').
  f_equal. destruct σ as [vs os al tk tr]. unfold set_vectors; simpl in *. f_equal.
  apply map_eq. intros a.
  destruct (decide (a = other)), (decide (a = this)); by simplify_map_eq.
Qed.

(** ** Construction *)


Lemma copies_S src from dst lo n :
  copies src from dst lo (S n)
    = EvCopyConstruct (Some (src, from + lo)) (Some (dst, lo)) :: copies src from dst (S lo) n.
Proof. done. Qed.



(** The same for the loop of [std::uninitialized_copy_n]. *)
Lemma uninitialized_copy_from_Throw src from dst n :
  ∀ k σ e σ',
    (∀ i, i < k → is_Some (objects σ !! (dst, i))) →
    uninitialized_from false (src, from) (dst, 0) k n σ = (Throw e, σ') →
    ∃ j, k ≤ j < k + n ∧
      e = ElementError (ticks σ + (j - k)) ∧
      trace σ' = rev (destroys dst 0 j) ++ rev (copies src from dst k (S j - k)) ++ trace σ ∧
      vectors σ' = vectors σ ∧ allocated σ' = allocated σ ∧
      (∀ q, q.1 ≠ dst → objects σ' !! q = objects σ !! q) ∧
      (∀ i, i < j → objects σ' !! (dst, i) = None).
Proof.
  induction n as [|n IH]; intros k σ e σ' Hlive; simpl; [done|].
  unfold ptr_add; simpl.
  intros [H|([] & σ1 & Hstep & H)]%bind_Throw_inv.
  - unfold try_catch in H.
    destruct (objects σ !! (src, from + k)) as [w|] eqn:Hw.
    2:{ by rewrite (ForwardConstruct_slot_None _ false _ _ Hw) in H. }
    rewrite (ForwardConstruct_slot _ false _ _ _ Hw) in H. simpl in H.
    destruct (throws (ticks σ)); [|done].
    set (σa := ticked _ σ) in H.
    destruct (destroy_n_run dst k 0 σa)
      as (σ2 & Hrun & Hvec & Hal & Htk & Hgone & Hframe & Htr).
    rewrite destroys_live in Htr by (intros i Hi; apply Hlive; lia).
    rewrite (bind_Ok _ _ _ _ _ Hrun) in H. unfold throw in H. simplify_eq.
    exists k. split_and!; [lia..| | |done|done| |].
    + f_equal. lia.
    + rewrite Htr. by replace (S k - k) with 1 by lia.
    + intros q Hq. by rewrite Hframe by auto.
    + intros i Hi. apply Hgone. lia.
  - unfold try_catch in Hstep.
    destruct (objects σ !! (src, from + k)) as [w|] eqn:Hw.
    2:{ by rewrite (ForwardConstruct_slot_None _ false _ _ Hw) in Hstep. }
    rewrite (ForwardConstruct_slot _ false _ _ _ Hw) in Hstep. simpl in Hstep.
    destruct (throws (ticks σ)).
    { destruct (destroy_n_run dst k 0 (ticked (transfer false (src, from + k) (dst, k)) σ))
        as (σ2 & Hrun & _).
      by rewrite (bind_Ok _ _ _ _ _ Hrun) in Hstep. }
    simplify_eq.
    apply IH in H as (j & Hj & -> & Htr & Hvec & Hal & Hframe & Hgone).
    + exists j. simpl in *. split_and!; [lia..| | |done|done| |done].
      * f_equal. lia.
      * rewrite Htr. replace (S j - k) with (S (j - k)) by lia.
        rewrite copies_S. simpl. rewrite <- (assoc_L (++)). simpl.
        by replace (S j - S k) with (j - k) by lia.
      * intros q Hq. rewrite Hframe by done.
        apply lookup_insert_ne. intros <-. by apply Hq.
    + intros i Hi. simpl. destruct (decide (i = k)) as [->|Hne].
      * rewrite lookup_insert_eq. by eexists.
      * rewrite lookup_insert_ne by (intros [=]; lia). apply Hlive. lia.
Qed.

Lemma heap_ok_fresh σ q : heap_ok σ → allocated σ < q.1 → objects σ !! q = None.
Proof.
  intros Hok Hq. destruct (objects σ !! q) as [w|] eqn:Hw; [|done].
  apply Hok in Hw. simpl in Hw. lia.
Qed.


Lemma Vector_copy_ctor_Throw this other o σ e σ' :
  heap_ok σ →
  vectors σ !! other = Some o →
  Vector_copy_ctor this other σ = (Throw e, σ') →
  ∃ j, j < size_ o ∧
    e = ElementError (ticks σ + j) ∧
    vectors σ' = vectors σ ∧
    objects σ' = objects σ ∧
    trace σ' = rev (destroys (S (allocated σ)) 0 j)
                 ++ rev (copies (buffer_ (data_ o)) 0 (S (allocated σ)) 0 (S j)) ++ trace σ.
Proof.
  intros Hok Ho. unfold Vector_copy_ctor.
  rewrite (bind_Ok _ _ _ _ _ (load_Some _ _ _ Ho)).
  intros [H|(data & σ1 & Hctor & H)]%bind_Throw_inv.
  { rewrite RawMemory_ctor_eq in H. by destruct (decide (size_ o = 0)). }
  rewrite RawMemory_ctor_eq in Hctor.
  destruct (decide (size_ o = 0)) as [Hempty|Hsize]; simplify_eq.
  { rewrite Hempty in H. by cbv in H. }
  apply bind_Throw_inv in H as [H|([] & σ3 & _ & H)]; [|done].
  unfold unwinding, try_catch, uninitialized_copy_n, GetAddress in H.
  simpl in H.
  set (b := S (allocated σ)) in *.
  destruct (uninitialized_from _ _ _ _ _ _) as [[[]|e0|f] σ2] eqn:Hloop; simplify_eq.
  apply uninitialized_copy_from_Throw in Hloop
    as (j & Hj & -> & Htr & Hvec & _ & Hframe & _); [|intros; lia].
  unfold bind, RawMemory_dtor, Deallocate, throw in H; simpl in H. simplify_eq.
  exists j. simpl in *. rewrite Nat.sub_0_r in *.
  split_and!; [lia|done|done| |done].
  apply map_eq. intros q. rewrite map_lookup_filter.
  destruct (decide (q.1 = b)) as [Hq|Hq].
  - rewrite (heap_ok_fresh σ q Hok) by (unfold b in Hq; lia).
    destruct (objects σ2 !! q); [|done]. simpl. by rewrite option_guard_False by auto.
  - rewrite Hframe by done. simpl. destruct (objects σ !! q); [|done]. simpl.
    by rewrite option_guard_True.
Qed.

(** ** Growth, slot by slot *)

(** A growing call whose filling succeeds: the new block takes the place of
    the old one with what the filling put there; the elements of the old
    block are destroyed and the block is released, so that no object is left
    in it; no other slot changes. *)
Lemma grow_with_run this v capacity fill σ σ2 :
  capacity ≠ 0 →
  vectors σ !! this = Some v →
  let new_data := mkRawMemory (S (allocated σ)) capacity in
  fill new_data (mkState (vectors σ) (objects σ) (S (allocated σ)) (ticks σ) (trace σ))
    = (Ok tt, σ2) →
  vectors σ2 = vectors σ →
  ∃ σ',
    grow_with this v capacity fill σ = (Ok tt, σ') ∧
    vectors σ' = <[this := mkVector new_data (size_ v)]> (vectors σ) ∧
    allocated σ' = allocated σ2 ∧ ticks σ' = ticks σ2 ∧
    (∀ q, objects σ' !! q
          = if decide (q.1 = buffer_ (data_ v)) then None else objects σ2 !! q) ∧
    trace σ' =
      rev ((λ i, EvDestroy (Some (buffer_ (data_ v), i))
                   (bool_decide (is_Some (objects σ2 !! (buffer_ (data_ v), i)))))
             <$> seq 0 (size_ v)) ++ trace σ2.
Proof.
  intros Hcap Hv new_data Hfill Hvec. unfold new_data in *. unfold grow_with.
  erewrite bind_Ok; [|rewrite RawMemory_ctor_eq; by rewrite decide_False by done].
  erewrite bind_Ok; [|unfold unwinding, try_catch; by rewrite Hfill].
  unfold retire_old.
  erewrite bind_Ok; [|apply set_data_Some; by rewrite Hvec].
  set (σ3 := set_vectors _ σ2). set (b := buffer_ (data_ v)).
  destruct (destroy_n_run b (size_ v) 0 σ3)
    as (σ4 & Hrun & Hvec4 & Hal4 & Htk4 & _ & Hframe4 & Htr4).
  unfold GetAddress. fold b. rewrite (bind_Ok _ _ _ _ _ Hrun).
  eexists. split; [reflexivity|]. simpl. rewrite Hvec4, Hal4, Htk4, Htr4. simpl.
  rewrite Hvec. split_and!; [done..| |done].
  intros q. rewrite map_lookup_filter. fold b.
  destruct (decide (q.1 = b)) as [Heq|Hne].
  - destruct (objects σ4 !! q); [|done]. simpl. by rewrite option_guard_False by auto.
  - rewrite Hframe4 by auto. simpl. destruct (objects σ2 !! q); [|done]. simpl.
    by rewrite option_guard_True.
Qed.

Lemma bind_Ok_inv {A B} (m : M A) (k : A → M B) σ b σ' :
  bind m k σ = (Ok b, σ') → ∃ a σ1, m σ = (Ok a, σ1) ∧ k a σ1 = (Ok b, σ').
Proof.
  unfold bind. destruct (m σ) as [[a|e|f] σ1]; intros H; simplify_eq; eauto.
Qed.

Lemma load_Ok_inv this σ v σ' :
  load this σ = (Ok v, σ') → vectors σ !! this = Some v ∧ σ' = σ.
Proof. unfold load. destruct (vectors σ !! this); intros; by simplify_eq. Qed.


Lemma Erase_returns this pos_t σ p σ' :
  Erase this pos_t σ = (Ok p, σ') →
  ∃ v, vectors σ !! this = Some v ∧ p = (buffer_ (data_ v), pos_t).
Proof.
  unfold Erase.
  intros (v & σ1 & [Hv ->]%load_Ok_inv & H)%bind_Ok_inv.
  repeat (apply bind_Ok_inv in H as (? & ? & _ & H)).
  unfold ret in H. simplify_eq. by exists v.
Qed.

(** ** Calls on which no element operation throws *)

Section Succeeding.
Hypothesis throws_never : ∀ k, throws k = false.

(** [std::uninitialized_copy_n] from block [src] into another block [dst]. *)
Lemma uninitialized_copy_run src from dst to n σ :
  src ≠ dst →
  (∀ i, i < n → is_Some (objects σ !! (src, from + i))) →
  ∃ σ',
    uninitialized_from false (src, from) (dst, to) 0 n σ = (Ok tt, σ') ∧
    vectors σ' = vectors σ ∧ allocated σ' = allocated σ ∧
    (∀ i, i < n → objects σ' !! (dst, to + i) = objects σ !! (src, from + i)) ∧
    (∀ q, q.1 ≠ dst ∨ q.2 < to ∨ to + n ≤ q.2 → objects σ' !! q = objects σ !! q).
Proof.
  intros Hblk Hlive.
  destruct (uninitialized_from_Ok throws_never false (src, from) (dst, to) n Hblk 0 σ)
    as (σ' & Hrun & Hvec & Hal & Hdst & Hframe).
  { intros i Hi. apply Hlive. lia. }
  pose proof (keeps_uninitialized_copy dst (src, from) (dst, to) n eq_refl 0 σ)
    as (_ & _ & Hout & _).
  rewrite Hrun in Hout. simpl in Hout.
  exists σ'. split_and!; [done..| |].
  - intros i Hi. apply (Hdst i). lia.
  - intros [qb qi] Hq. simpl in Hq.
    destruct (decide (qb = dst)) as [->|Hne]; [|by apply Hout].
    apply Hframe. intros i Hi. unfold ptr_add; simpl. split; intros [=]; [lia|done].
Qed.


Lemma Vector_copy_ctor_run this other o l σ :
  holds σ other o l →
  this ≠ other →
  let data := mkRawMemory (if decide (size_ o = 0) then 0 else S (allocated σ)) (size_ o) in
  ∃ σ',
    Vector_copy_ctor this other σ = (Ok tt, σ') ∧
    holds σ' this (mkVector data (size_ o)) l ∧
    holds σ' other o l ∧
    (∀ q, q.1 ≤ allocated σ → objects σ' !! q = objects σ !! q) ∧
    (∀ a, a ≠ this → vectors σ' !! a = vectors σ !! a) ∧
    allocated σ' = (if decide (size_ o = 0) then allocated σ else S (allocated σ)).
Proof.
  intros Hother Hne data. pose proof Hother as (Ho & Hle & Hold & Hl).
  pose proof (holds_well_formed _ _ _ _ Hother) as (_ & _ & _ & Hlive).
  pose proof (holds_length _ _ _ _ Hother) as Hlen.
  unfold Vector_copy_ctor, data. clear data.
  rewrite (bind_Ok _ _ _ _ _ (load_Some _ _ _ Ho)).
  destruct (decide (size_ o = 0)) as [Hempty|Hsize].
  - erewrite bind_Ok by (rewrite RawMemory_ctor_eq; by rewrite decide_True by done).
    erewrite bind_Ok; [|rewrite Hempty; reflexivity].
    eexists. split; [done|]. simpl. split_and!; [| |done| |done].
    + apply holds_intro; simpl; [apply lookup_insert_eq|lia..|done|intros; lia].
    + apply holds_intro; simpl; [by rewrite lookup_insert_ne|done..|].
      intros i Hi. by apply (holds_lookup _ _ _ _ _ Hother).
    + intros a Ha. by apply lookup_insert_ne.
  - erewrite bind_Ok by (rewrite RawMemory_ctor_eq; by rewrite decide_False by done).
    set (σ1 := mkState _ _ _ _ _).
    destruct (uninitialized_copy_run (buffer_ (data_ o)) 0 (S (allocated σ)) 0 (size_ o) σ1)
      as (σ2 & Hrun & Hvec & Hal & Hnew & Hframe); [lia|done|].
    erewrite bind_Ok;
      [|unfold unwinding, try_catch, uninitialized_copy_n, GetAddress; simpl;
        by rewrite Hrun].
    eexists. split; [done|]. simpl. split_and!.
    + apply holds_intro; simpl; [apply lookup_insert_eq|lia|rewrite Hal; simpl; lia|done|].
      intros i Hi. pose proof (Hnew i Hi) as Hi'. simpl in Hi'. rewrite Hi'.
      by apply (holds_lookup _ _ _ _ _ Hother).
    + apply holds_intro; simpl;
        [by rewrite lookup_insert_ne, Hvec|done|rewrite Hal; simpl; lia|done|].
      intros i Hi. rewrite Hframe by (simpl; lia).
      by apply (holds_lookup _ _ _ _ _ Hother).
    + intros q Hq. rewrite Hframe by lia. done.
    + intros a Ha. rewrite Hvec. by apply lookup_insert_ne.
    + by rewrite Hal.
Qed.

(** *** Copy assignment *)

(** The address [with_local_addr] picks for a local [Vector] is in use by no
    [Vector] object. *)
Lemma local_addr_fresh σ : vectors σ !! local_addr σ = None.
Proof.
  unfold local_addr.
  assert (∀ a, is_Some (vectors σ !! a) →
               a ≤ map_fold (λ a _ acc, a `max` acc) 0 (vectors σ)) as Hmax.
  { apply (map_fold_weak_ind (λ r (m : gmap nat Vector), ∀ a, is_Some (m !! a) → a ≤ r)).
    - intros a [x Hx]. by rewrite lookup_empty in Hx.
    - intros i x m r Hi IH a Ha. destruct (decide (a = i)) as [->|Hne]; [lia|].
      rewrite lookup_insert_ne in Ha by done. specialize (IH a Ha). lia. }
  destruct (vectors σ !! S _) eqn:H; [|done].
  specialize (Hmax _ (mk_is_Some _ _ H)). lia.
Qed.

Lemma elem_copy_assign_slot dst src u w σ :
  objects σ !! dst = Some u →
  objects σ !! src = Some w →
  elem_copy_assign dst (AtSlot src) σ
    = (Ok tt, set_objects <[dst := w]> (ticked (EvCopyAssign (Some src) (Some dst)) σ)).
Proof.
  intros Hd Hs. unfold elem_copy_assign.
  erewrite bind_Ok by (unfold fetch; by rewrite Hd).
  erewrite bind_Ok by (unfold value_of, fetch; by rewrite Hs).
  erewrite bind_Ok by reflexivity.
  erewrite bind_Ok by (unfold element_op; simpl; by rewrite throws_never).
  reflexivity.
Qed.

(** The loop [data_[i] = rhs[i]] over a range of indices that both arrays
    hold: the elements of [rhs] are assigned to those of [this], one by one. *)
Lemma assign_prefix_run this rhs v r n :
  ∀ i σ,
    vectors σ !! this = Some v →
    vectors σ !! rhs = Some r →
    buffer_ (data_ v) ≠ buffer_ (data_ r) →
    i + n ≤ size_ v → size_ v ≤ capacity_ (data_ v) →
    i + n ≤ size_ r → size_ r ≤ capacity_ (data_ r) →
    (∀ j, i ≤ j < i + n → is_Some (objects σ !! (buffer_ (data_ v), j))) →
    (∀ j, i ≤ j < i + n → is_Some (objects σ !! (buffer_ (data_ r), j))) →
    ∃ σ',
      assign_prefix this rhs i n σ = (Ok tt, σ') ∧
      vectors σ' = vectors σ ∧ allocated σ' = allocated σ ∧
      (∀ j, i ≤ j < i + n →
            objects σ' !! (buffer_ (data_ v), j) = objects σ !! (buffer_ (data_ r), j)) ∧
      (∀ q, q.1 ≠ buffer_ (data_ v) ∨ q.2 < i ∨ i + n ≤ q.2 →
            objects σ' !! q = objects σ !! q).
Proof.
  set (bv := buffer_ (data_ v)). set (br := buffer_ (data_ r)).
  induction n as [|n IH]; intros i σ Hv Hr Hblk Hiv Hcv Hir Hcr Hlv Hlr; simpl.
  { eexists. split_and!; [done..|intros; lia|done]. }
  destruct (Hlv i) as [u Hu]; [lia|].
  destruct (Hlr i) as [w Hw]; [lia|].
  rewrite (bind_Ok _ _ _ _ _ (load_Some _ _ _ Hv)).
  rewrite (bind_Ok _ _ _ _ _ (RawMemory_index_Ok (data_ v) i _ ltac:(lia))).
  erewrite bind_Ok;
    [|unfold Vector_index; rewrite (bind_Ok _ _ _ _ _ (load_Some _ _ _ Hr));
      erewrite bind_Ok; [|unfold assert_; by rewrite bool_decide_eq_true_2 by lia];
      apply RawMemory_index_Ok; lia].
  fold bv br. rewrite (bind_Ok _ _ _ _ _ (elem_copy_assign_slot _ _ _ _ _ Hu Hw)).
  set (σ1 := set_objects _ _).
  assert (∀ q, q ≠ (bv, i) → objects σ1 !! q = objects σ !! q) as Hσ1.
  { intros q Hq. simpl. by rewrite lookup_insert_ne. }
  destruct (IH (S i) σ1) as (σ' & Hrun & Hvec & Hal & Hnew & Hframe);
    [done|done|done|lia|done|lia|done| | |].
  { intros j Hj. rewrite Hσ1 by (intros [=]; lia). apply Hlv. lia. }
  { intros j Hj. rewrite Hσ1 by (intros [=]; done). apply Hlr. lia. }
  exists σ'. split_and!; [done..| |].
  - intros j Hj. destruct (decide (j = i)) as [->|Hne].
    + rewrite Hframe by (simpl; lia). simpl. by rewrite lookup_insert_eq.
    + rewrite Hnew by lia. apply Hσ1. intros [=]; done.
  - intros [qb qi] Hq. simpl in Hq. rewrite Hframe by (simpl; lia).
    apply Hσ1. intros [=]. lia.
Qed.

(** X6.  [operator=(const Vector&)] between two different arrays makes [this] hold
    copies of the elements of [rhs], in order, and leaves [rhs] as it is.  If
    [rhs] has more elements than [this] has capacity, [this] gets a new block
    whose capacity is the size of [rhs] and its old block is released;
    otherwise it keeps its block and capacity and no storage is allocated.
    No other array and no object of another block changes. *)
Theorem copy_assign_copies this rhs v r lv lr σ :
  this ≠ rhs →
  holds σ this v lv →
  holds σ rhs r lr →
  buffer_ (data_ v) ≠ buffer_ (data_ r) ∨ (size_ v = 0 ∧ size_ r = 0) →
  let data := if decide (capacity_ (data_ v) < size_ r)
              then mkRawMemory (S (allocated σ)) (size_ r) else data_ v in
  ∃ σ',
    copy_assign this rhs σ = (Ok tt, σ') ∧
    holds σ' this (mkVector data (size_ r)) lr ∧
    holds σ' rhs r lr ∧
    allocated σ' = (if decide (capacity_ (data_ v) < size_ r)
                    then S (allocated σ) else allocated σ) ∧
    (∀ a, a ≠ this → vectors σ' !! a = vectors σ !! a) ∧
    (∀ q, q.1 ≠ buffer_ (data_ v) → q.1 ≤ allocated σ → objects σ' !! q = objects σ !! q).
Proof.
  intros Hne Hthis Hrhs Hblk data. unfold data. clear data.
  pose proof Hthis as (Hv & Hvle & Hvold & _).
  pose proof Hrhs as (Hr & Hrle & Hrold & _).
  pose proof (holds_length _ _ _ _ Hthis) as Hvlen.
  pose proof (holds_length _ _ _ _ Hrhs) as Hrlen.
  pose proof (holds_well_formed _ _ _ _ Hthis) as (_ & _ & _ & Hvlive).
  pose proof (holds_well_formed _ _ _ _ Hrhs) as (_ & _ & _ & Hrlive).
  set (bv := buffer_ (data_ v)) in *. set (br := buffer_ (data_ r)) in *.
  unfold copy_assign. rewrite decide_True by done.
  rewrite (bind_Ok _ _ _ _ _ (load_Some _ _ _ Hv)).
  rewrite (bind_Ok _ _ _ _ _ (load_Some _ _ _ Hr)).
  destruct (decide (capacity_ (data_ v) < size_ r)) as [Hmore|Hfit].
  - (* a copy of rhs is built and swapped in; the local takes the old block *)
    assert (bv ≠ br) as Hdisj by (destruct Hblk as [?|[? ?]]; [done|lia]).
    unfold with_local_addr. set (local := local_addr σ).
    pose proof (local_addr_fresh σ) as Hlocal. fold local in Hlocal.
    assert (local ≠ this) as Hlt by (intros Heq; rewrite Heq in Hlocal; congruence).
    assert (local ≠ rhs) as Hlr by (intros Heq; rewrite Heq in Hlocal; congruence).
    destruct (Vector_copy_ctor_run local rhs r lr σ Hrhs Hlr)
      as (σ1 & Hctor & Hcopy & Hrhs1 & Hobj1 & Hvec1 & Hal1).
    rewrite decide_False in Hcopy, Hal1 by lia.
    rewrite (bind_Ok _ _ _ _ _ Hctor).
    assert (vectors σ1 !! this = Some v) as Hv1 by (by rewrite Hvec1).
    erewrite bind_Ok; [|apply Swap_exchanges; [exact Hv1|apply Hcopy]].
    set (σ2 := set_vectors _ σ1).
    assert (holds σ2 local v lv) as Hold2.
    { apply holds_intro; simpl; [apply lookup_insert_eq|done|rewrite Hal1; lia|done|].
      intros i Hi. fold bv. rewrite Hobj1 by done.
      by apply (holds_lookup _ _ _ _ _ Hthis). }
    destruct (Vector_dtor_run local v lv σ2 Hold2)
      as (σ3 & Hdtor & Hvec3 & Hobj3 & _ & _ & Hal3).
    exists σ3. split; [done|]. fold bv in Hobj3. split_and!.
    + apply holds_intro; simpl.
      * rewrite Hvec3. simpl.
        by rewrite lookup_delete_ne, lookup_insert_ne, lookup_insert_eq.
      * lia.
      * rewrite Hal3. simpl. rewrite Hal1. lia.
      * done.
      * intros i Hi. rewrite Hobj3. simpl. rewrite decide_False by lia.
        by apply (holds_lookup _ _ _ _ _ Hcopy).
    + apply holds_intro; simpl.
      * rewrite Hvec3. simpl.
        rewrite lookup_delete_ne, !lookup_insert_ne by done. by rewrite Hvec1.
      * done.
      * rewrite Hal3. simpl. rewrite Hal1. lia.
      * done.
      * intros i Hi. fold br. rewrite Hobj3. simpl. rewrite decide_False by done.
        rewrite Hobj1 by done. by apply (holds_lookup _ _ _ _ _ Hrhs).
    + rewrite Hal3. simpl. by rewrite Hal1.
    + intros a Ha. rewrite Hvec3. simpl.
      destruct (decide (a = local)) as [->|Hal'].
      * by rewrite lookup_delete_eq.
      * rewrite lookup_delete_ne, !lookup_insert_ne by done. by apply Hvec1.
    + intros q Hq1 Hq2. rewrite Hobj3. rewrite decide_False by done. simpl.
      by apply Hobj1.
  - destruct (decide (size_ r < size_ v)) as [Hless|Hnotless].
    + (* the common prefix is assigned, the rest of this is destroyed *)
      assert (bv ≠ br) as Hdisj by (destruct Hblk as [?|[? ?]]; [done|lia]).
      destruct (assign_prefix_run this rhs v r (size_ r) 0 σ)
        as (σ1 & Hrun1 & Hvec1 & Hal1 & Hnew1 & Hframe1);
        [done|done|done|simpl; lia|done|simpl; lia|done|..].
      { intros j Hj. apply Hvlive. lia. }
      { intros j Hj. apply Hrlive. lia. }
      rewrite (bind_Ok _ _ _ _ _ Hrun1).
      rewrite (bind_Ok _ _ _ _ _ (RawMemory_plus_Ok (data_ v) (size_ r) _ ltac:(lia))).
      fold bv.
      destruct (destroy_n_run bv (size_ v - size_ r) (size_ r) σ1)
        as (σ2 & Hrun2 & Hvec2 & Hal2 & _ & _ & Hframe2 & _).
      rewrite (bind_Ok _ _ _ _ _ Hrun2).
      erewrite set_size_Some by (by rewrite Hvec2, Hvec1).
      eexists. split; [done|]. simpl. fold bv br in Hnew1, Hframe1. split_and!.
      * apply holds_intro; simpl; [apply lookup_insert_eq|lia|by rewrite Hal2, Hal1|done|].
        intros i Hi. fold bv. rewrite Hframe2 by (simpl; lia).
        rewrite Hnew1 by lia. by apply (holds_lookup _ _ _ _ _ Hrhs).
      * apply holds_intro; simpl;
          [by rewrite lookup_insert_ne, Hvec2, Hvec1|done|by rewrite Hal2, Hal1|done|].
        intros i Hi. fold br. rewrite Hframe2 by (simpl; auto).
        rewrite Hframe1 by (simpl; auto). by apply (holds_lookup _ _ _ _ _ Hrhs).
      * by rewrite Hal2, Hal1.
      * intros a Ha. by rewrite lookup_insert_ne, Hvec2, Hvec1.
      * intros q Hq _. rewrite Hframe2 by auto. by apply Hframe1; auto.
    + destruct Hblk as [Hdisj|[Hv0 Hr0]].
      * (* this is assigned throughout, the rest of rhs is copied after it *)
        destruct (assign_prefix_run this rhs v r (size_ v) 0 σ)
          as (σ1 & Hrun1 & Hvec1 & Hal1 & Hnew1 & Hframe1);
          [done|done|done|simpl; lia|done|simpl; lia|done|..].
        { intros j Hj. apply Hvlive. lia. }
        { intros j Hj. apply Hrlive. lia. }
        fold bv br in Hnew1, Hframe1.
        rewrite (bind_Ok _ _ _ _ _ Hrun1).
        destruct (uninitialized_copy_run br (size_ v) bv (size_ v) (size_ r - size_ v) σ1)
          as (σ2 & Hrun2 & Hvec2 & Hal2 & Hnew2 & Hframe2); [done| |].
        { intros i Hi. rewrite Hframe1 by (simpl; auto). apply Hrlive. lia. }
        erewrite bind_Ok; [|unfold uninitialized_copy_n, GetAddress, ptr_add; simpl; exact Hrun2].
        erewrite set_size_Some by (by rewrite Hvec2, Hvec1).
        eexists. split; [done|]. simpl. split_and!.
        -- apply holds_intro; simpl; [apply lookup_insert_eq|lia|by rewrite Hal2, Hal1|done|].
           intros i Hi. fold bv. destruct (decide (i < size_ v)) as [Hlo|Hhi].
           ++ rewrite Hframe2 by (simpl; lia). rewrite Hnew1 by lia.
              by apply (holds_lookup _ _ _ _ _ Hrhs).
           ++ specialize (Hnew2 (i - size_ v)).
              replace (size_ v + (i - size_ v)) with i in Hnew2 by lia.
              rewrite Hnew2 by lia. rewrite Hframe1 by (simpl; auto).
              by apply (holds_lookup _ _ _ _ _ Hrhs).
        -- apply holds_intro; simpl;
             [by rewrite lookup_insert_ne, Hvec2, Hvec1|done|by rewrite Hal2, Hal1|done|].
           intros i Hi. fold br. rewrite Hframe2 by (simpl; auto).
           rewrite Hframe1 by (simpl; auto). by apply (holds_lookup _ _ _ _ _ Hrhs).
        -- by rewrite Hal2, Hal1.
        -- intros a Ha. by rewrite lookup_insert_ne, Hvec2, Hvec1.
        -- intros q Hq _. rewrite Hframe2 by auto. by apply Hframe1; auto.
      * (* both arrays are empty *)
        rewrite Hv0, Hr0. simpl.
        erewrite bind_Ok by reflexivity.
        erewrite bind_Ok by reflexivity.
        erewrite set_size_Some by done.
        eexists. split; [done|]. simpl. split_and!; [| |done| |done].
        -- apply holds_intro; simpl; [apply lookup_insert_eq|lia|done|lia|intros; lia].
        -- apply holds_intro; simpl; [by rewrite lookup_insert_ne|lia|done|lia|intros; lia].
        -- intros a Ha. by rewrite lookup_insert_ne.
Qed.

(** *** Appending *)

Lemma ForwardConstruct_reads buf a x σ :
  value_read σ a = Some x →
  ForwardConstruct buf a σ
    = (Ok tt, set_objects <[buf := x]> (ticked (init_event (Some buf) a) σ)).
Proof.
  intros Ha. destruct a as [w|[p|w]|[p|w]]; simpl in Ha; simplify_eq.
  - by apply (ForwardConstruct_Ok throws_never).
  - pose proof (ForwardConstruct_slot buf false p x σ Ha) as H.
    unfold forward_as in H. rewrite H. by rewrite throws_never.
  - by apply (ForwardConstruct_Ok throws_never).
  - by apply (ForwardConstruct_Ok throws_never).
Qed.

(** Filling the new block in [PushBack]: the new element is built first, in
    slot [size_], from an argument that may be an element of the old block;
    then the elements are relocated, each to its index. *)
Lemma PushBack_fill_run a x v new_data σ :
  value_read σ a = Some x →
  size_ v ≤ capacity_ new_data →
  buffer_ (data_ v) ≠ buffer_ new_data →
  (∀ i, i < size_ v → is_Some (objects σ !! (buffer_ (data_ v), i))) →
  ∃ σ',
    PushBack_fill v new_data a σ = (Ok tt, σ') ∧
    vectors σ' = vectors σ ∧ allocated σ' = allocated σ ∧
    (∀ i, i < size_ v →
          objects σ' !! (buffer_ new_data, i) = objects σ !! (buffer_ (data_ v), i)) ∧
    objects σ' !! (buffer_ new_data, size_ v) = Some x ∧
    (∀ q, q.1 ≠ buffer_ (data_ v) → q.1 ≠ buffer_ new_data ∨ size_ v < q.2 →
          objects σ' !! q = objects σ !! q).
Proof.
  intros Ha Hcap Hblk Hlive. unfold PushBack_fill.
  set (old := buffer_ (data_ v)) in *. set (new := buffer_ new_data) in *.
  rewrite (bind_Ok _ _ _ _ _ (RawMemory_plus_Ok _ _ _ Hcap)).
  unfold bind at 1, try_catch. rewrite (ForwardConstruct_reads _ _ _ _ Ha).
  set (σ1 := set_objects _ _). fold new in σ1.
  assert (∀ q, q ≠ (new, size_ v) → objects σ1 !! q = objects σ !! q) as Hσ1.
  { intros q Hq. simpl. by rewrite lookup_insert_ne. }
  destruct (uninitialized_from_Ok throws_never relocate_by_move
              (GetAddress (data_ v)) (GetAddress new_data) (size_ v) Hblk 0 σ1)
    as (σ' & Hrun & Hvec & Hal & Hdst & Hframe).
  { intros i Hi. unfold GetAddress, ptr_add; simpl. fold old.
    rewrite Hσ1 by (intros [=]; done). apply Hlive. lia. }
  unfold GetAddress, ptr_add in Hdst, Hframe; simpl in Hdst, Hframe.
  fold old new in Hdst, Hframe.
  exists σ'. split_and!; [|done..| | |].
  - unfold uninitialized_move_n, uninitialized_copy_n.
    by destruct relocate_by_move.
  - intros i Hi. rewrite Hdst by lia. apply Hσ1. intros [=]; done.
  - rewrite Hframe.
    + simpl. by rewrite lookup_insert_eq.
    + intros j Hj. split; intros [=]; [lia|done].
  - intros [qb qi] Hq1 Hq2. simpl in *. rewrite Hframe.
    + apply Hσ1. intros [=]. lia.
    + intros j Hj. split; intros [=]; [lia|done].
Qed.

(** [PushBack], slot by slot.  When the array has room, the new element is
    built in slot [size_] and nothing else changes.  When it is full, the
    elements and the new one end up in a new block of the grown capacity, at
    the same indices, and no object is left in the old block. *)
Lemma PushBack_run a x this v σ :
  value_read σ a = Some x →
  well_formed σ this v →
  let full := bool_decide (size_ v = capacity_ (data_ v)) in
  let old := buffer_ (data_ v) in
  let new := S (allocated σ) in
  ∃ σ',
    PushBack this a σ = (Ok tt, σ') ∧
    vectors σ' = <[this := mkVector (if full then mkRawMemory new (grown (size_ v))
                                     else data_ v) (S (size_ v))]> (vectors σ) ∧
    allocated σ' = (if full then new else allocated σ) ∧
    (∀ q, objects σ' !! q =
          if full then
            if decide (q.1 = new) then
              if decide (q.2 < size_ v) then objects σ !! (old, q.2)
              else if decide (q.2 = size_ v) then Some x
              else objects σ !! q
            else if decide (q.1 = old) then None
            else objects σ !! q
          else <[(old, size_ v) := x]> (objects σ) !! q).
Proof.
  intros Ha (Hv & Hle & Hold & Hlive) full old new. unfold full, old, new.
  clear full old new.
  case_bool_decide as Hfull.
  - rewrite (PushBack_growth _ _ _ _ Hv Hfull).
    set (new_data := mkRawMemory (S (allocated σ)) (grown (size_ v))).
    set (σ1 := mkState (vectors σ) (objects σ) (S (allocated σ)) (ticks σ) (trace σ)).
    destruct (PushBack_fill_run a x v new_data σ1 Ha)
      as (σ2 & Hfill & Hvec2 & Hal2 & Hmoved & Hnew & Hframe).
    { simpl. pose proof (grown_gt (size_ v)). lia. }
    { simpl. lia. }
    { done. }
    destruct (grow_with_run this v (grown (size_ v))
                (λ nd, PushBack_fill v nd a) σ σ2 (grown_nonzero _) Hv Hfill Hvec2)
      as (σ3 & Hgrow & Hvec3 & Hal3 & _ & Hobj3 & _).
    rewrite (bind_Ok _ _ _ _ _ Hgrow).
    erewrite set_size_Some by (rewrite Hvec3; apply lookup_insert_eq).
    eexists. split; [done|]. simpl. rewrite Hvec3, Hal3, Hal2. simpl.
    split_and!; [by rewrite insert_insert_eq|done|].
    intros [qb qi]. rewrite Hobj3. simpl in *.
    destruct (decide (qb = S (allocated σ))) as [->|Hnew'].
    + rewrite decide_False by lia.
      destruct (decide (qi < size_ v)); [by apply Hmoved|].
      destruct (decide (qi = size_ v)) as [->|]; [done|].
      apply Hframe; simpl; [lia|right; lia].
    + destruct (decide (qb = buffer_ (data_ v))); [done|].
      apply Hframe; simpl; auto.
  - unfold PushBack.
    rewrite (bind_Ok _ _ _ _ _ (load_Some _ _ _ Hv)).
    rewrite decide_False by done.
    rewrite bind_assoc.
    rewrite (bind_Ok _ _ _ _ _ (RawMemory_plus_Ok _ _ _ Hle)).
    erewrite bind_Ok; [|unfold try_catch; by rewrite (ForwardConstruct_reads _ _ _ _ Ha)].
    erewrite set_size_Some by done.
    eexists. split; [done|]. simpl. done.
Qed.

(** [PushBack] in terms of the sequence the array holds. *)
Lemma PushBack_holds a x this v l σ :
  holds σ this v l →
  value_read σ a = Some x →
  let data := if decide (size_ v = capacity_ (data_ v))
              then mkRawMemory (S (allocated σ)) (grown (size_ v)) else data_ v in
  ∃ σ',
    PushBack this a σ = (Ok tt, σ') ∧
    holds σ' this (mkVector data (S (size_ v))) (l ++ [x]) ∧
    (∀ a', a' ≠ this → vectors σ' !! a' = vectors σ !! a') ∧
    (∀ q, q.1 ≠ buffer_ (data_ v) → q.1 ≤ allocated σ → objects σ' !! q = objects σ !! q).
Proof.
  intros H Ha data. unfold data. clear data.
  pose proof H as (Hv & Hle & Hold & _).
  pose proof (holds_length _ _ _ _ H) as Hlen.
  destruct (PushBack_run a x this v σ Ha (holds_well_formed _ _ _ _ H))
    as (σ' & Hrun & Hvec & Hal & Hobj).
  exists σ'. split; [done|].
  assert (∀ i, i < S (size_ v) → (l ++ [x]) !! i
            = if decide (i < size_ v) then l !! i else Some x) as Hlookup.
  { intros i Hi. destruct (decide (i < size_ v)).
    - by rewrite lookup_app_l by lia.
    - rewrite lookup_app_r by lia. by replace (i - length l) with 0 by lia. }
  destruct (decide (size_ v = capacity_ (data_ v))) as [Hfull|Hroom].
  - rewrite bool_decide_eq_true_2 in Hvec, Hal, Hobj by done. split_and!.
    + apply holds_intro; simpl.
      * rewrite Hvec. apply lookup_insert_eq.
      * pose proof (grown_gt (size_ v)). lia.
      * lia.
      * rewrite length_app. simpl. lia.
      * intros i Hi. rewrite Hobj, Hlookup by done. simpl.
        rewrite decide_True by done.
        destruct (decide (i < size_ v)); [by apply (holds_lookup _ _ _ _ _ H)|].
        by rewrite decide_True by lia.
    + intros a' Ha'. rewrite Hvec. by apply lookup_insert_ne.
    + intros q Hq1 Hq2. rewrite Hobj.
      rewrite decide_False by lia. by rewrite decide_False by done.
  - rewrite bool_decide_eq_false_2 in Hvec, Hal, Hobj by done. split_and!.
    + apply holds_intro; simpl.
      * rewrite Hvec. apply lookup_insert_eq.
      * lia.
      * lia.
      * rewrite length_app. simpl. lia.
      * intros i Hi. rewrite Hobj, Hlookup by done.
        destruct (decide (i < size_ v)).
        -- rewrite lookup_insert_ne by (intros [=]; lia).
           by apply (holds_lookup _ _ _ _ _ H).
        -- replace i with (size_ v) by lia. apply lookup_insert_eq.
    + intros a' Ha'. rewrite Hvec. by apply lookup_insert_ne.
    + intros q Hq1 Hq2. rewrite Hobj. apply lookup_insert_ne. intros <-. by apply Hq1.
Qed.

(** *** Inserting, erasing, reserving and resizing, as sequences *)


(** X17.  [Erase] at a position below [size_] returns an iterator to the same
    position; the array keeps its block and capacity and holds the elements
    it held without the one at the position, in the same order. *)
Theorem Erase_removes_element_at_position this pos_t v l σ :
  holds σ this v l →
  pos_t < size_ v →
  ∃ σ',
    Erase this pos_t σ = (Ok (buffer_ (data_ v), pos_t), σ') ∧
    holds σ' this (mkVector (data_ v) (size_ v - 1)) (delete pos_t l).
Proof.
  intros H Hpos.
  pose proof H as (Hv & _).
  pose proof (holds_length _ _ _ _ H) as Hlen.
  destruct (Erase_Ok throws_never this pos_t v σ (holds_well_formed _ _ _ _ H) Hpos)
    as (σ' & p & Hrun & (Hv' & Hle' & Hold' & _) & Hbefore & Hafter).
  destruct (Erase_returns _ _ _ _ _ Hrun) as (v0 & Hv0 & ->).
  assert (v0 = v) as -> by congruence.
  exists σ'. split; [done|].
  apply holds_intro; [done..| |]; simpl in *.
  - rewrite length_delete by (apply lookup_lt_is_Some; lia). lia.
  - intros i Hi. destruct (decide (i < pos_t)) as [Hlt|Hge].
    + rewrite list_lookup_delete_lt by done. rewrite Hbefore by done.
      apply (holds_lookup _ _ _ _ _ H). lia.
    + rewrite list_lookup_delete_ge by lia. rewrite Hafter by lia.
      rewrite Nat.add_1_r. apply (holds_lookup _ _ _ _ _ H). lia.
Qed.



(** *** The relocations of a sequence of appends *)

(** An append of a caller-owned value relocates every element once when it
    finds the array full, and none otherwise. *)
Lemma logs_run_append c a this v σ :
  is_append c = true →
  call_arg c = Some a →
  caller_owned a →
  vectors σ !! this = Some v →
  size_ v ≤ capacity_ (data_ v) →
  logs (run c this) σ
    (if decide (size_ v = capacity_ (data_ v))
     then transfer_plan relocate_by_move (buffer_ (data_ v), 0) (S (allocated σ), 0) (size_ v)
     else []).
Proof.
  intros Hc Hca Ha Hv Hle.
  destruct (decide (size_ v = capacity_ (data_ v))) as [Hfull|Hroom].
  - assert (grows c v) as Hg by (destruct c; by simplify_eq/=).
    eapply logs_ext; [by apply run_growth|].
    apply logs_bind_then_nil; [|intros; apply logs_tail_of].
    apply logs_grow_with.
    { destruct c; simplify_eq/=; apply grown_nonzero. }
    intros σ1.
    pose proof (logs_fill_of c v (mkRawMemory (S (allocated σ)) (new_capacity c v)) σ1)
      as Hlogs.
    destruct c; simplify_eq/=; apply Hlogs; by intros; simplify_eq.
  - assert (logs (PushBack this a) σ []) as Hpush.
    { unfold PushBack.
      apply logs_bind_nil; [apply logs_load|].
      intros v' σ1 [Hv' ->]%load_Ok_inv. assert (v' = v) as -> by congruence.
      rewrite decide_False by done.
      apply logs_bind_nil; [|intros; apply logs_set_size].
      apply logs_bind_nil; [apply logs_RawMemory_plus|intros slot σ1 _].
      by apply logs_construct_new. }
    destruct c as [a'|a'|?|?|?]; simplify_eq/=; [done|].
    eapply logs_ext; [apply bind_ext, EmplaceBack_as_PushBack|].
    apply logs_bind_then_nil; [|intros; apply logs_ret].
    apply logs_bind_then_nil; [done|]. intros _ σ1.
    apply logs_bind_nil; [apply logs_load|intros; apply logs_RawMemory_index].
Qed.

Lemma capacity_after_S n :
  capacity_after (S n) =
    if decide (n = capacity_after n)
    then (if decide (capacity_after n = 0) then 1 else capacity_after n * 2)
    else capacity_after n.
Proof. done. Qed.

Lemma run_all_appends_relocations cs :
  Forall (λ c, is_append c = true ∧ ∃ a, call_arg c = Some a ∧ caller_owned a) cs →
  ∀ this v σ,
    well_formed σ this v →
    capacity_ (data_ v) = capacity_after (size_ v) →
    ∃ σ' l,
      run_all cs this σ = (Ok tt, σ') ∧
      relocates σ σ' l ∧
      length l + (capacity_after (size_ v) - 1)
        = capacity_after (size_ v + length cs) - 1.
Proof.
  induction 1 as [|c cs (Hc & a & Hca & Hco) _ IH]; intros this v σ Hwf Hcap; simpl.
  { exists σ, []. rewrite Nat.add_0_r. split_and!; [done|apply relocates_refl|done]. }
  destruct (caller_owned_arg_value _ Hco) as [val Ha].
  destruct (run_append_Ok throws_never c a val this v σ Hc Hca Ha Hwf)
    as (σ1 & Hrun & Hwf1).
  pose proof Hwf as (Hv & Hle & _).
  destruct (logs_run_append c a this v σ Hc Hca Hco Hv Hle) as (l1 & Hrel1 & _ & Hall).
  rewrite Hrun in Hrel1, Hall. simpl in Hrel1. rewrite (Hall tt eq_refl) in Hrel1.
  rewrite (bind_Ok _ _ _ _ _ Hrun).
  edestruct (IH this _ σ1 Hwf1) as (σ' & l2 & Hrest & Hrel2 & Hlen2).
  { simpl. destruct (decide (size_ v = capacity_ (data_ v))) as [Heq|Hne]; simpl.
    - rewrite <- Hcap, <- Heq. rewrite decide_True by done. done.
    - rewrite <- Hcap. by rewrite decide_False by done. }
  eexists σ', _. split_and!; [done|by eapply relocates_trans|].
  cbn [size_ data_] in Hlen2.
  rewrite length_app, <- Nat.add_succ_comm, <- Hlen2, capacity_after_S, <- Hcap.
  destruct (decide (size_ v = capacity_ (data_ v))) as [Heq|Hne].
  - unfold transfer_plan. rewrite length_fmap, length_seq.
    destruct (decide (capacity_ (data_ v) = 0)); lia.
  - simpl. lia.
Qed.

(** *** Appending, stated on sequences *)

(** X12.  [PushBack] returns and the array holds the elements it held followed by
    the new value, whether the array had room or had to grow (the capacity is
    then [size_ == 0 ? 1 : size_ * 2]); the value may be given by a reference
    to an element of the array itself, which is read before the elements are
    relocated.  No other array and no object of another block changes. *)
Theorem PushBack_appends a x this v l σ :
  holds σ this v l →
  value_read σ a = Some x →
  let data := if decide (size_ v = capacity_ (data_ v))
              then mkRawMemory (S (allocated σ)) (grown (size_ v)) else data_ v in
  ∃ σ',
    PushBack this a σ = (Ok tt, σ') ∧
    holds σ' this (mkVector data (S (size_ v))) (l ++ [x]) ∧
    (∀ a', a' ≠ this → vectors σ' !! a' = vectors σ !! a') ∧
    (∀ q, q.1 ≠ buffer_ (data_ v) → q.1 ≤ allocated σ → objects σ' !! q = objects σ !! q).
Proof. apply PushBack_holds. Qed.

(** X13.  [EmplaceBack] appends like [PushBack] and returns a reference to the new
    last element: the slot it returns holds the new value, and it is the slot
    [Back] returns afterwards. *)
Theorem EmplaceBack_returns_new_last_element a x this v l σ :
  holds σ this v l →
  value_read σ a = Some x →
  ∃ σ' v',
    EmplaceBack this a σ = (Ok (buffer_ (data_ v'), size_ v), σ') ∧
    holds σ' this v' (l ++ [x]) ∧
    objects σ' !! (buffer_ (data_ v'), size_ v) = Some x ∧
    Back this σ' = (Ok (buffer_ (data_ v'), size_ v), σ').
Proof.
  intros H Ha.
  destruct (PushBack_holds a x this v l σ H Ha) as (σ' & Hrun & H' & _).
  set (v' := mkVector _ (S (size_ v))) in H'.
  pose proof H' as (Hv' & Hle' & _).
  pose proof (holds_length _ _ _ _ H) as Hlen.
  exists σ', v'. split_and!; [|done| |].
  - rewrite EmplaceBack_as_PushBack. rewrite (bind_Ok _ _ _ _ _ Hrun).
    rewrite (bind_Ok _ _ _ _ _ (load_Some _ _ _ Hv')).
    simpl. rewrite Nat.sub_0_r. apply RawMemory_index_Ok. simpl in Hle'. lia.
  - rewrite (holds_lookup _ _ _ _ _ H') by (simpl; lia).
    rewrite lookup_app_r by lia. by replace (size_ v - length l) with 0 by lia.
  - unfold Back. rewrite (bind_Ok _ _ _ _ _ (load_Some _ _ _ Hv')). simpl.
    apply RawMemory_index_Ok. simpl in Hle'. lia.
Qed.

(** X15.  [PushBack] followed by [PopBack] gives back the sequence the array held,
    with the same size; the capacity stays what [PushBack] made it. *)
Theorem PushBack_then_PopBack_restores a x this v l σ :
  holds σ this v l →
  value_read σ a = Some x →
  ∃ σ1 σ2 v2,
    PushBack this a σ = (Ok tt, σ1) ∧
    PopBack this σ1 = (Ok tt, σ2) ∧
    holds σ2 this v2 l ∧
    size_ v2 = size_ v ∧
    capacity_ (data_ v2) = (if decide (size_ v = capacity_ (data_ v))
                            then grown (size_ v) else capacity_ (data_ v)).
Proof.
  intros H Ha.
  destruct (PushBack_holds a x this v l σ H Ha) as (σ1 & Hrun1 & H1 & _).
  destruct (PopBack_run _ _ _ _ _ H1) as (σ2 & Hrun2 & H2 & _).
  eexists σ1, σ2, _. split_and!; [done|done|exact H2|..]; simpl.
  - apply (holds_length _ _ _ _ H).
  - by destruct (decide (size_ v = capacity_ (data_ v))).
Qed.

(** X24.  Starting from an empty array, a sequence of [n] appends relocates
    elements [capacity - 1] times in all, where [capacity] is the capacity the
    doubling rule gives after [n] appends: fewer than two relocations per
    append on average. *)
Theorem appends_relocate_less_than_twice_each cs this σ :
  vectors σ !! this = Some Vector_default →
  Forall (λ c, is_append c = true ∧ ∃ a, call_arg c = Some a ∧ caller_owned a) cs →
  ∃ σ' evs,
    run_all cs this σ = (Ok tt, σ') ∧
    trace σ' = evs ++ trace σ ∧
    length (relocations evs) = capacity_after (length cs) - 1 ∧
    length (relocations evs) ≤ 2 * length cs.
Proof.
  intros Hempty Hcs.
  destruct (run_all_appends_relocations cs Hcs this Vector_default σ)
    as (σ' & l & Hrun & (evs & Htr & <-) & Hlen).
  { split_and!; simpl; [done|lia..]. }
  { done. }
  simpl in Hlen. rewrite length_rev in Hlen.
  exists σ', evs. split_and!; [done|done|lia|].
  destruct (decide (length cs = 0)) as [Hz|Hnz].
  - rewrite Hz in *. simpl in Hlen. lia.
  - destruct (capacity_after_power (length cs)) as (j & Hj & _ & Hhi); lia.
Qed.

End Succeeding.

(** ** What the members declared [noexcept] never do *)

Lemma no_throw_Swap this other : no_throw (Swap this other).
Proof.
  unfold Swap.
  repeat first [ apply no_throw_set_size | apply no_throw_set_data | apply no_throw_load
               | apply no_throw_bind; [|intros ?] ].
Qed.

Lemma no_throw_Vector_dtor this : no_throw (Vector_dtor this).
Proof.
  unfold Vector_dtor.
  apply no_throw_bind; [apply no_throw_load|intros v].
  apply no_throw_bind; [apply no_throw_destroy_n|intros _].
  apply no_throw_bind; [apply no_throw_RawMemory_dtor|intros _].
  by intros σ e.
Qed.

Lemma no_throw_ptr_pred p : no_throw (ptr_pred p).
Proof. unfold ptr_pred. destruct (p.2); [apply no_throw_fault|apply no_throw_ret]. Qed.

(** X10.  No exception leaves a member that the header declares [noexcept], nor the
    destructor, whatever the element type and whichever of its operations
    throw: [Swap], move assignment, move construction, [PopBack], [Back],
    [operator[]], [Size], [Capacity], [begin], [end], [cbegin], [cend]. *)
Theorem noexcept_members_never_throw this other index :
  no_throw (Swap this other) ∧
  no_throw (move_assign this other) ∧
  no_throw (Vector_move_ctor this other) ∧
  no_throw (PopBack this) ∧
  no_throw (Back this) ∧
  no_throw (Vector_index this index) ∧
  no_throw (Size this) ∧ no_throw (Capacity this) ∧
  no_throw (begin_ this) ∧ no_throw (end_ this) ∧
  no_throw (cbegin this) ∧ no_throw (cend this) ∧
  no_throw (Vector_dtor this).
Proof.
  split_and!.
  - apply no_throw_Swap.
  - apply no_throw_Swap.
  - apply no_throw_bind; [apply no_throw_store|intros _; apply no_throw_Swap].
  - unfold PopBack.
    apply no_throw_bind; [apply no_throw_load|intros v].
    apply no_throw_bind; [apply no_throw_RawMemory_plus|intros e].
    apply no_throw_bind; [apply no_throw_ptr_pred|intros last].
    apply no_throw_bind; [apply no_throw_Destroy|intros _].
    apply no_throw_set_size.
  - unfold Back.
    apply no_throw_bind; [apply no_throw_load|intros v].
    destruct (size_ v); [apply no_throw_fault|apply no_throw_RawMemory_index].
  - unfold Vector_index.
    apply no_throw_bind; [apply no_throw_load|intros v].
    apply no_throw_bind; [apply no_throw_assert|intros _].
    apply no_throw_RawMemory_index.
  - apply no_throw_bind; [apply no_throw_load|intros v; apply no_throw_ret].
  - apply no_throw_bind; [apply no_throw_load|intros v; apply no_throw_ret].
  - apply no_throw_bind; [apply no_throw_load|intros v; apply no_throw_RawMemory_plus].
  - apply no_throw_bind; [apply no_throw_load|intros v; apply no_throw_RawMemory_plus].
  - apply no_throw_bind; [apply no_throw_load|intros v; apply no_throw_RawMemory_plus].
  - apply no_throw_bind; [apply no_throw_load|intros v; apply no_throw_RawMemory_plus].
  - apply no_throw_Vector_dtor.
Qed.

(** ** Failures that leave the array as it was *)


(** X7.  [operator=(const Vector&)] when [rhs] has more elements than [this] has
    capacity: when the call ends by an exception, the array, [rhs] and every
    object are what they were before the call, since the copy of [rhs] is
    built aside, and discarded, before [this] is touched. *)
Theorem copy_assign_failure_changes_nothing this rhs v r σ e σ' :
  heap_ok σ →
  this ≠ rhs →
  vectors σ !! this = Some v →
  vectors σ !! rhs = Some r →
  capacity_ (data_ v) < size_ r →
  copy_assign this rhs σ = (Throw e, σ') →
  vectors σ' = vectors σ ∧ objects σ' = objects σ.
Proof.
  intros Hok Hne Hv Hr Hmore. unfold copy_assign.
  rewrite decide_True by done.
  rewrite (bind_Ok _ _ _ _ _ (load_Some _ _ _ Hv)).
  rewrite (bind_Ok _ _ _ _ _ (load_Some _ _ _ Hr)).
  rewrite decide_True by done. unfold with_local_addr.
  intros [H|([] & σ1 & _ & H)]%bind_Throw_inv.
  - apply (Vector_copy_ctor_Throw _ _ _ _ _ _ Hok Hr) in H as (j & _ & _ & ? & ? & _).
    done.
  - exfalso. refine (no_throw_elim _ _ _ _ _ H).
    apply no_throw_bind; [apply no_throw_Swap|intros _; apply no_throw_Vector_dtor].
Qed.

(** ** The invariant of the array *)











Section Invariant.
Hypothesis throws_never : ∀ k, throws k = false.












End Invariant.

(** ** The properties of the helper lemmas above, stated *)

(** X14.  [PopBack] on an array that holds at least one element returns; it calls
    the destructor once, on the last element, and performs no other element
    operation; the array keeps its block and capacity and holds the elements
    before the last. *)
Theorem PopBack_removes_last this v l x σ :
  holds σ this v (l ++ [x]) →
  ∃ σ',
    PopBack this σ = (Ok tt, σ') ∧
    holds σ' this (mkVector (data_ v) (length l)) l ∧
    objects σ' = delete (buffer_ (data_ v), length l) (objects σ) ∧
    trace σ' = EvDestroy (Some (buffer_ (data_ v), length l)) true :: trace σ ∧
    ticks σ' = ticks σ ∧ allocated σ' = allocated σ.
Proof. apply PopBack_run. Qed.

(** X22.  [Resize] to a size that does not exceed the current one returns, whatever
    the element operations that may throw: it calls the destructor once on
    each element from [new_size] on, in index order, and performs no other
    element operation; the array keeps its block and capacity and holds its
    first [new_size] elements. *)
Theorem Resize_shrinks this v l new_size σ :
  holds σ this v l →
  new_size ≤ size_ v →
  ∃ σ',
    Resize this new_size σ = (Ok tt, σ') ∧
    holds σ' this (mkVector (data_ v) new_size) (take new_size l) ∧
    (∀ i, new_size ≤ i < size_ v → objects σ' !! (buffer_ (data_ v), i) = None) ∧
    (∀ q, q.1 ≠ buffer_ (data_ v) ∨ q.2 < new_size ∨ size_ v ≤ q.2 →
          objects σ' !! q = objects σ !! q) ∧
    trace σ' = rev (destroys (buffer_ (data_ v)) new_size (size_ v - new_size)) ++ trace σ ∧
    ticks σ' = ticks σ ∧ allocated σ' = allocated σ.
Proof. apply Resize_shrink_run. Qed.

(** X5.  [~Vector] on an array that holds [l] returns: it calls the destructor
    once on each of the [size_] elements, in index order, and on nothing
    else; then the block is released, so that no object remains in it, and no
    object of another block is touched. *)
Theorem Vector_dtor_destroys_each_element_once this v l σ :
  holds σ this v l →
  ∃ σ',
    Vector_dtor this σ = (Ok tt, σ') ∧
    vectors σ' = delete this (vectors σ) ∧
    (∀ q, objects σ' !! q
          = if decide (q.1 = buffer_ (data_ v)) then None else objects σ !! q) ∧
    trace σ' = rev (destroys (buffer_ (data_ v)) 0 (length l)) ++ trace σ ∧
    ticks σ' = ticks σ ∧ allocated σ' = allocated σ.
Proof. apply Vector_dtor_run. Qed.


(** X3.  [Vector(const Vector& other)] builds an array that holds copies of the
    elements of [other], in order, in a new block whose capacity is the size
    of [other], not its capacity; [other] and the existing objects stay as
    they are. *)
Theorem Vector_copy_ctor_copies this other o l σ :
  (∀ k, throws k = false) →
  holds σ other o l →
  this ≠ other →
  let data := mkRawMemory (if decide (size_ o = 0) then 0 else S (allocated σ)) (size_ o) in
  ∃ σ',
    Vector_copy_ctor this other σ = (Ok tt, σ') ∧
    holds σ' this (mkVector data (size_ o)) l ∧
    holds σ' other o l ∧
    (∀ q, q.1 ≤ allocated σ → objects σ' !! q = objects σ !! q) ∧
    (∀ a, a ≠ this → vectors σ' !! a = vectors σ !! a).
Proof.
  intros Hnever Ho Hne data.
  destruct (Vector_copy_ctor_run Hnever this other o l σ Ho Hne)
    as (σ' & ? & ? & ? & ? & ? & _).
  by exists σ'.
Qed.

(** ** Handing over a block *)

(** X9.  After [Vector b(std::move(a))] the destructor of [a] finds an empty array
    without a block: it destroys no element, and [b] holds what [a] held. *)
Theorem moved_from_array_can_be_destroyed this other o l σ :
  holds σ other o l →
  this ≠ other →
  size_ o = 0 ∨ buffer_ (data_ o) ≠ 0 →
  ∃ σ',
    (Vector_move_ctor this other ;; Vector_dtor other) σ = (Ok tt, σ') ∧
    holds σ' this o l ∧
    vectors σ' !! other = None ∧
    trace σ' = trace σ ∧
    (∀ q, q.1 ≠ 0 → objects σ' !! q = objects σ !! q).
Proof.
  intros H Hne Hblock. pose proof H as (Ho & Hle & Hold & _).
  unfold Vector_move_ctor. rewrite bind_assoc.
  erewrite bind_Ok by reflexivity.
  set (σ0 := set_vectors <[this := Vector_default]> σ).
  erewrite bind_Ok.
  2:{ apply (Swap_exchanges this other Vector_default o σ0); simpl;
        [apply lookup_insert_eq|by rewrite lookup_insert_ne]. }
  set (σ1 := set_vectors _ σ0).
  destruct (Vector_dtor_run other Vector_default [] σ1)
    as (σ' & Hrun & Hvec & Hobj & Htr & _ & Hal).
  { split_and!; simpl; [apply lookup_insert_eq|lia..|done]. }
  exists σ'. split; [done|]. simpl in *. split_and!.
  - apply holds_intro; [|done| |by apply (holds_length _ _ _ _ H)|].
    + rewrite Hvec. simpl.
      by rewrite lookup_delete_ne, lookup_insert_ne, lookup_insert_eq by done.
    + by rewrite Hal.
    + intros i Hi. rewrite Hobj. destruct Hblock as [?|Hnz]; [lia|].
      rewrite decide_False by done. by apply (holds_lookup _ _ _ _ _ H).
  - rewrite Hvec. apply lookup_delete_eq.
  - done.
  - intros q Hq. rewrite Hobj. by rewrite decide_False.
Qed.

(** X26.  Move assignment of a [RawMemory] followed by the destruction of its
    source: the target owns the block and capacity the source had, the
    objects of that block are untouched, and the storage released is the
    block the target had before, once.  Move construction starts from a null
    block, so that the destruction of its source releases nothing. *)
Theorem RawMemory_move_hands_over_the_block this rhs σ :
  buffer_ this ≠ buffer_ rhs →
  (∃ σ',
     (p <- RawMemory_move_assign this rhs ;; RawMemory_dtor p.2 ;; ret p.1) σ
       = (Ok rhs, σ') ∧
     vectors σ' = vectors σ ∧
     ∀ q, objects σ' !! q = if decide (q.1 = buffer_ this) then None else objects σ !! q) ∧
  (∃ σ',
     (p <- RawMemory_move_ctor rhs ;; RawMemory_dtor p.2 ;; ret p.1) σ = (Ok rhs, σ') ∧
     vectors σ' = vectors σ ∧
     ∀ q, objects σ' !! q = if decide (q.1 = 0) then None else objects σ !! q).
Proof.
  intros Hne.
  assert (∀ b q, objects (Deallocate b σ).2 !! q
                 = if decide (q.1 = b) then None else objects σ !! q) as Hfree.
  { intros b q. simpl. rewrite map_lookup_filter.
    destruct (decide (q.1 = b)).
    - destruct (objects σ !! q); [|done]. simpl. by rewrite option_guard_False by auto.
    - destruct (objects σ !! q); [|done]. simpl. by rewrite option_guard_True. }
  split.
  - exists (Deallocate (buffer_ this) σ).2. split_and!; [|done|apply Hfree].
    destruct this, rhs. reflexivity.
  - exists (Deallocate 0 σ).2. split_and!; [|done|apply Hfree].
    destruct rhs. reflexivity.
Qed.

End VectorModel.

(** * Concrete element types and runs *)

(** A string-like element type: a moved-from object is left empty, and [T()]
    is the empty string. *)
Definition emptied (s : string) : string := "".

(** The schedule on which no element operation throws, and the one on which
    exactly operation [n] throws. *)
Definition never_throws (k : nat) : bool := false.
Definition throws_at (n k : nat) : bool := bool_decide (k = n).

Local Open Scope cpp_scope.
Local Notation "m ;; k" := (bind m (λ _, k))
  (at level 100, k at level 200, right associativity) : cpp_scope.

(** [Vector<std::string>]: copyable, with a non-throwing move. *)
Module Strings.
Abbreviation run := (run emptied true true never_throws).
Abbreviation run_all := (run_all emptied true true never_throws).
Abbreviation Resize := (Resize emptied "" true true never_throws).
Abbreviation Erase := (Erase emptied never_throws).
Abbreviation move_assign := (@move_assign string).
Abbreviation Vector_move_ctor := (@Vector_move_ctor string).

(** An array with room for [capacity] strings, holding those of [l]. *)
Definition holding (capacity : nat) (l : list string) : @state string :=
  exec (store 1 Vector_default ;;
        run (CallReserve capacity) 1 ;;
        run_all ((λ s, CallPushBack (Lvalue (Outside s))) <$> l) 1)
       initial.
End Strings.

(** Strings whose copy constructor and move constructor may throw, operation
    [n] being the one that does. *)
Module ThrowingStrings.
Abbreviation run n := (run emptied false true (throws_at n)).
Abbreviation run_all n := (run_all emptied false true (throws_at n)).

Definition holding (n capacity : nat) (l : list string) : @state string :=
  exec (store 1 Vector_default ;;
        run n (CallReserve capacity) 1 ;;
        run_all n ((λ s, CallPushBack (Lvalue (Outside s))) <$> l) 1)
       initial.
End ThrowingStrings.

(** A move-only type whose move constructor may throw. *)
Module MoveOnly.
Abbreviation run n := (run emptied false false (throws_at n)).
Abbreviation run_all n := (run_all emptied false false (throws_at n)).

Definition holding (n : nat) (l : list string) : @state string :=
  exec (store 1 Vector_default ;;
        run_all n ((λ s, CallPushBack (Rvalue (Outside s))) <$> l) 1)
       initial.
End MoveOnly.

(** ** C1 *)


(** ** C2 *)



(** ** C3 *)

(** C3 fails on the code.  The array holds ["a"; "b"] in a block of four
    slots; [Emplace] at position 0 builds its scratch value and that
    constructor throws.  The handler destroys the live element 0, then reads
    slot [size_ + pos_t + 1 = 3], which holds no object: the call leaves
    defined behaviour instead of rethrowing, and element 0 is gone. *)
Lemma Emplace_recovery_reads_beyond_live_range :
  let σ := ThrowingStrings.holding 2 4 ["a"; "b"] in
  let call := ThrowingStrings.run 2 (CallEmplace 0 (Pack "c")) 1 in
  contents σ 1 = Some [Some "a"; Some "b"] ∧
  (call σ).1 = Fault (NoObject (1, 3)) ∧
  trace (call σ).2 = EvDestroy (Some (1, 0)) true :: EvConstruct None :: trace σ ∧
  size_ <$> vectors (call σ).2 !! 1 = Some 2 ∧
  contents (call σ).2 1 = Some [None; Some "b"].
Proof. vm_compute. done. Qed.

(** ** C4 *)

(** C4 fails on the code when the capacity exceeds the new size.  The array
    holds ["a"] in a block of four slots; [Resize(2)] builds the new element
    in slot [Capacity() - count_new_elem = 3] instead of slot 1 and sets the
    size to 2. *)
Lemma Resize_below_capacity_misplaces_elements :
  let σ := Strings.holding 4 ["a"] in
  let call := Strings.Resize 1 2 in
  slots σ 1 0 4 = [Some "a"; None; None; None] ∧
  (call σ).1 = Ok tt ∧
  vectors (call σ).2 !! 1 = Some (mkVector (mkRawMemory 1 4) 2) ∧
  slots (call σ).2 1 0 4 = [Some "a"; None; None; Some ""].
Proof. vm_compute. done. Qed.

(** ** C5 *)

(** C5, as stated, fails: after [a = std::move(b)] with [a] holding one
    element, the source [b] holds that element and has size 1. *)
Lemma move_assign_source_not_empty :
  let σ := exec (store 2 Vector_default ;;
                 Strings.run (CallPushBack (Lvalue (Outside "b"))) 2)
                (Strings.holding 0 ["a"]) in
  let σ' := exec (Strings.move_assign 1 2) σ in
  contents σ 1 = Some [Some "a"] ∧ contents σ 2 = Some [Some "b"] ∧
  contents σ' 1 = Some [Some "b"] ∧ contents σ' 2 = Some [Some "a"] ∧
  size_ <$> vectors σ' !! 2 = Some 1.
Proof. vm_compute. done. Qed.

Lemma move_exchanges_block_and_size_witness :
  let σ := exec (store 2 Vector_default) (Strings.holding 0 ["a"]) in
  Strings.move_assign 1 2 σ
    = (Ok tt, set_vectors (λ m, <[2 := mkVector (mkRawMemory 1 1) 1]>
                                  (<[1 := Vector_default]> m)) σ)
  ∧ ∀ fresh, fresh ≠ 2 →
      Strings.Vector_move_ctor fresh 2 σ
        = (Ok tt, set_vectors (λ m, <[2 := Vector_default]>
                                      (<[fresh := Vector_default]> m)) σ).
Proof.
  apply (move_exchanges_block_and_size (T := string)); reflexivity.
Defined.

(** ** C6 *)



(** ** C7 *)

Lemma appends_follow_doubling_witness :
  let cs := [CallPushBack (Lvalue (Outside "a")); CallEmplaceBack (Pack "b");
             CallPushBack (Rvalue (Outside "c"))] in
  let σ := exec (store 1 Vector_default) initial in
  (∀ k, k ≤ 3 →
     ∃ σ' v',
       Strings.run_all (take k cs) 1 σ = (Ok tt, σ') ∧
       vectors σ' !! 1 = Some v' ∧
       size_ v' = k ∧
       capacity_ (data_ v') = capacity_after k) ∧
  (∀ k, 0 < k → ∃ j, capacity_after k = 2 ^ j ∧ k ≤ 2 ^ j < 2 * k) ∧
  (∀ k k', k ≤ k' → capacity_after k ≤ capacity_after k').
Proof.
  intros cs σ.
  apply (appends_follow_doubling emptied true true never_throws cs 1 σ).
  - reflexivity.
  - reflexivity.
  - repeat constructor; eexists; (split; [reflexivity|exact I]).
Defined.

(** ** C8 *)

(** C8 fails on the code: [Resize] to a size below the capacity returns
    normally and breaks the invariant, since slot 1, inside the live range,
    holds no object, and slot 3, outside it, holds one. *)
Lemma Resize_breaks_invariant :
  let σ := Strings.holding 4 ["a"] in
  let call := Strings.Resize 1 2 in
  invariant σ 1 ∧ (call σ).1 = Ok tt ∧ ¬ invariant (call σ).2 1.
Proof.
  intros σ call.
  assert (vectors σ !! 1 = Some (mkVector (mkRawMemory 1 4) 1)) as Hv
    by reflexivity.
  assert (vectors (call σ).2 !! 1 = Some (mkVector (mkRawMemory 1 4) 2)) as Hv'
    by reflexivity.
  unfold invariant. rewrite Hv, Hv'; simpl. split_and!.
  - lia.
  - intros [|i] Hi; [by eexists|lia].
  - apply map_Forall_to_list. vm_compute. repeat constructor.
  - reflexivity.
  - intros (_ & Hlive & _).
    destruct (Hlive 1) as [w Hw]; [lia|]. vm_compute in Hw. done.
Qed.

(** ** C9 *)

(** C9 fails on the code at [pos == end()] when the array is not full.  The
    array holds ["a"] in a block of two slots; [Insert(end(), "b")] moves the
    last element to slot 1, passes [std::move_backward] the empty range
    [data_ + 1, data_ + 0) and assigns "b" over slot 1, so the array holds
    [""; "b"]; [Erase] at the same position leaves [""], not ["a"]. *)
Lemma Insert_at_end_then_Erase_loses_last :
  let σ := Strings.holding 2 ["a"] in
  let σ1 := exec (Strings.run (CallInsert 1 (Lvalue (Outside "b"))) 1) σ in
  let σ2 := exec (Strings.Erase 1 1) σ1 in
  contents σ 1 = Some [Some "a"] ∧
  result (Strings.run (CallInsert 1 (Lvalue (Outside "b"))) 1) σ = Ok tt ∧
  contents σ1 1 = Some [Some ""; Some "b"] ∧
  result (Strings.Erase 1 1) σ1 = Ok (1, 1) ∧
  contents σ2 1 = Some [Some ""].
Proof. vm_compute. done. Qed.

(** * Examples of the further properties *)

Local Notation "x <- m ;; k" := (bind m (λ x, k))
  (at level 100, m at next level, k at level 200, right associativity) : cpp_scope.

(** Two arrays of strings: the one at address 1 holds ["a"; "b"] in block 1,
    which has four slots; the one at address 2 holds ["c"] in block 2, which
    has one slot. *)
Definition two_arrays : @state string :=
  exec (store 2 Vector_default ;;
        Strings.run (CallPushBack (Lvalue (Outside "c"))) 2)
       (Strings.holding 4 ["a"; "b"]).



Lemma Vector_copy_ctor_copies_witness :
  let σ := Strings.holding 4 ["a"; "b"] in
  ∃ σ',
    Vector_copy_ctor emptied true never_throws 2 1 σ = (Ok tt, σ') ∧
    holds σ' 2 (mkVector (mkRawMemory 2 2) 2) ["a"; "b"] ∧
    holds σ' 1 (mkVector (mkRawMemory 1 4) 2) ["a"; "b"] ∧
    (∀ q : ptr, q.1 ≤ 1 → objects σ' !! q = objects σ !! q) ∧
    (∀ a, a ≠ 2 → vectors σ' !! a = vectors σ !! a).
Proof.
  intros σ.
  apply (Vector_copy_ctor_copies emptied true never_throws 2 1
           (mkVector (mkRawMemory 1 4) 2) ["a"; "b"] σ (λ _, eq_refl)).
  - split_and!; [reflexivity|simpl; lia|vm_compute; lia|reflexivity].
  - lia.
Defined.


Lemma Vector_dtor_destroys_each_element_once_witness :
  let σ := Strings.holding 4 ["a"; "b"] in
  ∃ σ',
    Vector_dtor 1 σ = (Ok tt, σ') ∧
    vectors σ' = delete 1 (vectors σ) ∧
    (∀ q : ptr, objects σ' !! q = if decide (q.1 = 1) then None else objects σ !! q) ∧
    trace σ' = rev (destroys 1 0 2) ++ trace σ ∧
    ticks σ' = ticks σ ∧ allocated σ' = allocated σ.
Proof.
  intros σ.
  apply (Vector_dtor_destroys_each_element_once 1 (mkVector (mkRawMemory 1 4) 2)
           ["a"; "b"] σ).
  split_and!; [reflexivity|simpl; lia|vm_compute; lia|reflexivity].
Defined.

Lemma copy_assign_copies_witness :
  ∃ σ',
    copy_assign emptied true never_throws 2 1 two_arrays = (Ok tt, σ') ∧
    holds σ' 2 (mkVector (mkRawMemory 3 2) 2) ["a"; "b"] ∧
    holds σ' 1 (mkVector (mkRawMemory 1 4) 2) ["a"; "b"] ∧
    allocated σ' = 3 ∧
    (∀ a, a ≠ 2 → vectors σ' !! a = vectors two_arrays !! a) ∧
    (∀ q : ptr, q.1 ≠ 2 → q.1 ≤ 2 → objects σ' !! q = objects two_arrays !! q).
Proof.
  apply (copy_assign_copies emptied true never_throws (λ _, eq_refl) 2 1
           (mkVector (mkRawMemory 2 1) 1) (mkVector (mkRawMemory 1 4) 2)
           ["c"] ["a"; "b"] two_arrays).
  - lia.
  - split_and!; [reflexivity|simpl; lia|vm_compute; lia|reflexivity].
  - split_and!; [reflexivity|simpl; lia|vm_compute; lia|reflexivity].
  - left. simpl. lia.
Defined.

Lemma copy_assign_failure_changes_nothing_witness :
  let σ := exec (store 2 Vector_default) (ThrowingStrings.holding 2 4 ["a"; "b"]) in
  let σ' := (copy_assign emptied false (throws_at 2) 2 1 σ).2 in
  vectors σ' = vectors σ ∧ objects σ' = objects σ.
Proof.
  intros σ σ'.
  apply (copy_assign_failure_changes_nothing emptied false (throws_at 2) 2 1
           Vector_default (mkVector (mkRawMemory 1 4) 2) σ (ElementError 2) σ').
  - apply map_Forall_to_list. vm_compute. repeat constructor.
  - lia.
  - reflexivity.
  - reflexivity.
  - simpl. lia.
  - vm_compute. reflexivity.
Defined.

Lemma Swap_exchanges_contents_witness :
  ∃ σ',
    Swap 1 2 two_arrays = (Ok tt, σ') ∧
    holds σ' 1 (mkVector (mkRawMemory 2 1) 1) ["c"] ∧
    holds σ' 2 (mkVector (mkRawMemory 1 4) 2) ["a"; "b"] ∧
    objects σ' = objects two_arrays ∧ trace σ' = trace two_arrays ∧
    ticks σ' = ticks two_arrays ∧ allocated σ' = allocated two_arrays ∧
    Swap 1 2 σ' = (Ok tt, two_arrays).
Proof.
  apply (Swap_exchanges_contents 1 2 (mkVector (mkRawMemory 1 4) 2)
           (mkVector (mkRawMemory 2 1) 1) ["a"; "b"] ["c"] two_arrays).
  - split_and!; [reflexivity|simpl; lia|vm_compute; lia|reflexivity].
  - split_and!; [reflexivity|simpl; lia|vm_compute; lia|reflexivity].
Defined.


Lemma PopBack_removes_last_witness :
  let σ := Strings.holding 4 ["a"; "b"] in
  ∃ σ',
    PopBack 1 σ = (Ok tt, σ') ∧
    holds σ' 1 (mkVector (mkRawMemory 1 4) 1) ["a"] ∧
    objects σ' = delete (1, 1) (objects σ) ∧
    trace σ' = EvDestroy (Some (1, 1)) true :: trace σ ∧
    ticks σ' = ticks σ ∧ allocated σ' = allocated σ.
Proof.
  intros σ.
  apply (PopBack_removes_last 1 (mkVector (mkRawMemory 1 4) 2) ["a"] "b" σ).
  split_and!; [reflexivity|simpl; lia|vm_compute; lia|reflexivity].
Defined.

Lemma Resize_shrinks_witness :
  let σ := Strings.holding 4 ["a"; "b"] in
  ∃ σ',
    Resize emptied "" true true never_throws 1 1 σ = (Ok tt, σ') ∧
    holds σ' 1 (mkVector (mkRawMemory 1 4) 1) ["a"] ∧
    (∀ i, 1 ≤ i < 2 → objects σ' !! (1, i) = None) ∧
    (∀ q : ptr, q.1 ≠ 1 ∨ q.2 < 1 ∨ 2 ≤ q.2 → objects σ' !! q = objects σ !! q) ∧
    trace σ' = rev (destroys 1 1 1) ++ trace σ ∧
    ticks σ' = ticks σ ∧ allocated σ' = allocated σ.
Proof.
  intros σ.
  apply (Resize_shrinks emptied "" true true never_throws 1 (mkVector (mkRawMemory 1 4) 2)
           ["a"; "b"] 1 σ).
  - split_and!; [reflexivity|simpl; lia|vm_compute; lia|reflexivity].
  - simpl. lia.
Defined.


Lemma PushBack_appends_witness :
  let σ := Strings.holding 0 ["a"; "b"] in
  ∃ σ',
    PushBack emptied true true never_throws 1 (Lvalue (AtSlot (2, 0))) σ = (Ok tt, σ') ∧
    holds σ' 1 (mkVector (mkRawMemory 3 4) 3) ["a"; "b"; "a"] ∧
    (∀ a', a' ≠ 1 → vectors σ' !! a' = vectors σ !! a') ∧
    (∀ q : ptr, q.1 ≠ 2 → q.1 ≤ 2 → objects σ' !! q = objects σ !! q).
Proof.
  intros σ.
  apply (PushBack_appends emptied true true never_throws (λ _, eq_refl)
           (Lvalue (AtSlot (2, 0))) "a" 1 (mkVector (mkRawMemory 2 2) 2) ["a"; "b"] σ).
  - split_and!; [reflexivity|simpl; lia|vm_compute; lia|reflexivity].
  - reflexivity.
Defined.

Lemma EmplaceBack_returns_new_last_element_witness :
  let σ := Strings.holding 4 ["a"] in
  ∃ σ' v',
    EmplaceBack emptied true true never_throws 1 (Pack "b") σ
      = (Ok (buffer_ (data_ v'), 1), σ') ∧
    holds σ' 1 v' ["a"; "b"] ∧
    objects σ' !! (buffer_ (data_ v'), 1) = Some "b" ∧
    Back 1 σ' = (Ok (buffer_ (data_ v'), 1), σ').
Proof.
  intros σ.
  apply (EmplaceBack_returns_new_last_element emptied true true never_throws (λ _, eq_refl)
           (Pack "b") "b" 1 (mkVector (mkRawMemory 1 4) 1) ["a"] σ).
  - split_and!; [reflexivity|simpl; lia|vm_compute; lia|reflexivity].
  - reflexivity.
Defined.

Lemma PushBack_then_PopBack_restores_witness :
  let σ := Strings.holding 0 ["a"] in
  ∃ σ1 σ2 v2,
    PushBack emptied true true never_throws 1 (Rvalue (Outside "b")) σ = (Ok tt, σ1) ∧
    PopBack 1 σ1 = (Ok tt, σ2) ∧
    holds σ2 1 v2 ["a"] ∧
    size_ v2 = 1 ∧
    capacity_ (data_ v2) = 2.
Proof.
  intros σ.
  apply (PushBack_then_PopBack_restores emptied true true never_throws (λ _, eq_refl)
           (Rvalue (Outside "b")) "b" 1 (mkVector (mkRawMemory 1 1) 1) ["a"] σ).
  - split_and!; [reflexivity|simpl; lia|vm_compute; lia|reflexivity].
  - reflexivity.
Defined.


Lemma Erase_removes_element_at_position_witness :
  let σ := Strings.holding 4 ["a"; "b"; "c"] in
  ∃ σ',
    Erase emptied never_throws 1 1 σ = (Ok (1, 1), σ') ∧
    holds σ' 1 (mkVector (mkRawMemory 1 4) 2) ["a"; "c"].
Proof.
  intros σ.
  apply (Erase_removes_element_at_position emptied never_throws (λ _, eq_refl)
           1 1 (mkVector (mkRawMemory 1 4) 3) ["a"; "b"; "c"] σ).
  - split_and!; [reflexivity|simpl; lia|vm_compute; lia|reflexivity].
  - simpl. lia.
Defined.





Lemma appends_relocate_less_than_twice_each_witness :
  let cs := [CallPushBack (Lvalue (Outside "a")); CallEmplaceBack (Pack "b");
             CallPushBack (Rvalue (Outside "c"))] in
  let σ := exec (store 1 Vector_default) initial in
  ∃ σ' evs,
    Strings.run_all cs 1 σ = (Ok tt, σ') ∧
    trace σ' = evs ++ trace σ ∧
    length (relocations evs) = capacity_after 3 - 1 ∧
    length (relocations evs) ≤ 2 * 3.
Proof.
  intros cs σ.
  apply (appends_relocate_less_than_twice_each emptied true true never_throws
           (λ _, eq_refl) cs 1 σ).
  - reflexivity.
  - repeat constructor; eexists; (split; [reflexivity|exact I]).
Defined.



Lemma moved_from_array_can_be_destroyed_witness :
  let σ := Strings.holding 4 ["a"; "b"] in
  ∃ σ',
    (Vector_move_ctor 2 1 ;; Vector_dtor 1) σ = (Ok tt, σ') ∧
    holds σ' 2 (mkVector (mkRawMemory 1 4) 2) ["a"; "b"] ∧
    vectors σ' !! 1 = None ∧
    trace σ' = trace σ ∧
    (∀ q : ptr, q.1 ≠ 0 → objects σ' !! q = objects σ !! q).
Proof.
  intros σ.
  apply (moved_from_array_can_be_destroyed 2 1 (mkVector (mkRawMemory 1 4) 2)
           ["a"; "b"] σ).
  - split_and!; [reflexivity|simpl; lia|vm_compute; lia|reflexivity].
  - lia.
  - right. simpl. lia.
Defined.

Lemma RawMemory_move_hands_over_the_block_witness :
  let σ := Strings.holding 4 ["a"] in
  let this := mkRawMemory 1 4 in
  let rhs := mkRawMemory 2 2 in
  (∃ σ',
     (p <- RawMemory_move_assign this rhs ;; RawMemory_dtor p.2 ;; ret p.1) σ
       = (Ok rhs, σ') ∧
     vectors σ' = vectors σ ∧
     ∀ q : ptr, objects σ' !! q = if decide (q.1 = 1) then None else objects σ !! q) ∧
  (∃ σ',
     (p <- RawMemory_move_ctor rhs ;; RawMemory_dtor p.2 ;; ret p.1) σ = (Ok rhs, σ') ∧
     vectors σ' = vectors σ ∧
     ∀ q : ptr, objects σ' !! q = if decide (q.1 = 0) then None else objects σ !! q).
Proof.
  intros σ this rhs.
  apply (RawMemory_move_hands_over_the_block this rhs σ).
  simpl. lia.
Defined.
